(** * TP-Link Smart Plug client: codec, transport and time-sync loop

    A shallow embedding of [tplink_smartplug.py] and the properties of its
    autokey XOR codec, its 4-byte length framing, the request/reply
    transport ([send_command]) and the clock reconciliation cycle
    ([update_time]).

    Python values are modelled as follows.
    - [int] is [Z] (unbounded), [^] is [Z.lxor].
    - A [str] is the list of its code points, so [ord] is the identity on
      elements and [chr a] is the element [a].
    - A [bytes] object is a list of integers, each in [range(256)].
    - A raised exception is the [Raise] outcome of a computation. *)

From Stdlib Require Import String DecimalString ZArith List Lia Bool.
Import ListNotations.
Open Scope Z_scope.

(** ** Python values and exceptions *)

Definition str := list Z.
Definition bytes := list Z.

(** The subclasses of [Exception] that the modelled operations raise.
    [SocketError] is [socket.error], an alias of [OSError]; it covers
    [ConnectionRefusedError], [socket.timeout] and [socket.gaierror]. *)
Inductive exn : Type :=
| SocketError
| ValueError
| StructError
| KeyError
| TypeError
| OverflowError
| JSONDecodeError.

Inductive outcome (A : Type) : Type :=
| Return (a : A)
| Raise (e : exn).
Arguments Return {A} a.
Arguments Raise {A} e.

Definition obind {A B} (c : outcome A) (k : A -> outcome B) : outcome B :=
  match c with
  | Return a => k a
  | Raise e => Raise e
  end.

Declare Scope py_scope.
Delimit Scope py_scope with py.
Notation "x <- c ; k" := (obind c (fun x => k))
  (at level 61, c at next level, right associativity) : py_scope.

Definition len {A} (l : list A) : Z := Z.of_nat (length l).

Definition is_byte (a : Z) : bool := (0 <=? a) && (a <? 256).

(** [is_bytes s]: every code point of [s] is below 256, that is, [s] is a
    byte sequence carried in a [str]. *)
Definition is_bytes (s : list Z) : bool := forallb is_byte s.

(** ** Codec *)

Module Codec.

(** [pack(">I", n)]: four bytes, most significant first; [struct.error]
    outside of the unsigned 32-bit range. *)
Definition pack_I (n : Z) : outcome bytes :=
  if (0 <=? n) && (n <? 2 ^ 32) then
    Return [Z.land (Z.shiftr n 24) 255; Z.land (Z.shiftr n 16) 255;
            Z.land (Z.shiftr n 8) 255; Z.land n 255]
  else Raise StructError.

(** [struct.unpack(">I", b)], the big-endian reading of four bytes. *)
Definition unpack_I (b : bytes) : Z :=
  match b with
  | [b3; b2; b1; b0] =>
      b3 * 2 ^ 24 + b2 * 2 ^ 16 + b1 * 2 ^ 8 + b0
  | _ => -1
  end.

(** [bytes([a])]: [ValueError] unless [a] is in [range(256)]. *)
Definition bytes1 (a : Z) : outcome bytes :=
  if is_byte a then Return [a] else Raise ValueError.

(** The [for] loop of [encrypt]; [key] and [result] are its two mutable
    locals. *)
Fixpoint encrypt_loop (key : Z) (result : bytes) (string : str)
  : outcome bytes :=
  match string with
  | [] => Return result
  | i :: rest =>
      let a := Z.lxor key i in
      (b <- bytes1 a ;
       encrypt_loop a (result ++ b) rest)%py
  end.

Definition encrypt (string : str) : outcome bytes :=
  (result <- pack_I (len string) ;
   encrypt_loop 171 result string)%py.

(** The [for] loop of [decrypt].  The elements of a [bytes] object are in
    [range(256)] and [key] is 171 or one of them, so [a] is a valid
    argument of [chr] (lemma [decrypt_chr_defined]). *)
Fixpoint decrypt_loop (key : Z) (result : str) (string : bytes) : str :=
  match string with
  | [] => result
  | i :: rest =>
      let a := Z.lxor key i in
      decrypt_loop i (result ++ [a]) rest
  end.

Definition decrypt (string : bytes) : str := decrypt_loop 171 [] string.

(** What the loops append to [result], as functions of the start key. *)
Fixpoint encrypt_stream (key : Z) (string : str) : bytes :=
  match string with
  | [] => []
  | i :: rest => Z.lxor key i :: encrypt_stream (Z.lxor key i) rest
  end.

Fixpoint decrypt_stream (key : Z) (string : bytes) : str :=
  match string with
  | [] => []
  | i :: rest => Z.lxor key i :: decrypt_stream i rest
  end.

(** *** The cipher as the specification words it

    Start key [k_0 = 171]; [k_i = c_i].  With lists indexed from 0 the key
    used at position [j] is 171 for [j = 0] and the ciphertext byte at
    [j - 1] otherwise. *)
Definition spec_key (c : list Z) (j : nat) : Z :=
  match j with
  | O => 171
  | S j' => nth j' c 0
  end.

(** [autokey p c]: [c_i = p_i XOR k_(i-1)] at every position. *)
Definition autokey (p c : list Z) : Prop :=
  length c = length p /\
  forall j, (j < length p)%nat ->
    nth j c 0 = Z.lxor (nth j p 0) (spec_key c j).

(** The same equations read from the ciphertext:
    [p_i = c_i XOR k_(i-1)]. *)
Definition autokey_inv (c p : list Z) : Prop :=
  length p = length c /\
  forall j, (j < length c)%nat ->
    nth j p 0 = Z.lxor (nth j c 0) (spec_key c j).

End Codec.

(** ** String literals and the command catalog *)

Definition lit (s : string) : str :=
  map (fun c => Z.of_N (Ascii.N_of_ascii c)) (list_ascii_of_string s).

(** A JSON member name or string: the text between two double quotes
    (code point 34). *)
Definition quoted (s : string) : str := 34 :: lit s ++ [34].

Fixpoint str_eqb (s t : str) : bool :=
  match s, t with
  | [], [] => true
  | a :: s', b :: t' => (a =? b) && str_eqb s' t'
  | _, _ => false
  end.

(** The body [{"A":{"B":inner}}] shared by all catalog entries. *)
Definition request (a b : string) (inner : str) : str :=
  lit "{" ++ quoted a ++ lit ":{" ++ quoted b ++ lit ":" ++ inner ++ lit "}}".

Definition member (k : string) (v : string) : str :=
  lit "{" ++ quoted k ++ lit ":" ++ lit v ++ lit "}".

Definition commands : list (string * str) :=
  [ ("info"%string,      request "system" "get_sysinfo" (lit "{}"));
    ("on"%string,        request "system" "set_relay_state" (member "state" "1"));
    ("off"%string,       request "system" "set_relay_state" (member "state" "0"));
    ("ledoff"%string,    request "system" "set_led_off" (member "off" "1"));
    ("ledon"%string,     request "system" "set_led_off" (member "off" "0"));
    ("cloudinfo"%string, request "cnCloud" "get_info" (lit "{}"));
    ("wlanscan"%string,  request "netif" "get_scaninfo" (member "refresh" "0"));
    ("time"%string,      request "time" "get_time" (lit "{}"));
    ("schedule"%string,  request "schedule" "get_rules" (lit "{}"));
    ("countdown"%string, request "count_down" "get_rules" (lit "{}"));
    ("antitheft"%string, request "anti_theft" "get_rules" (lit "{}"));
    ("reboot"%string,    request "system" "reboot" (member "delay" "1"));
    ("reset"%string,     request "system" "reset" (member "delay" "1"));
    ("energy"%string,    request "emeter" "get_realtime" (lit "{}")) ].

(** [commands[name]]; [KeyError] for a name that is not in the catalog. *)
Definition commands_get (name : string) : outcome str :=
  match find (fun kv => String.eqb (fst kv) name) commands with
  | Some kv => Return (snd kv)
  | None => Raise KeyError
  end.

(** [commands["time"]], evaluated. *)
Definition commands_time : str :=
  Eval cbv in request "time" "get_time" (lit "{}").

(** ** JSON values and [datetime] *)

#[local] Set Warnings "-register-all".

(** What [json.loads] returns: [None], [bool], [int], [float], [str],
    [list] and [dict] objects.  The value of a float is not needed.  A
    [dict] is the list of its items; a key occurs once, as in Python, and
    a lookup takes the first item with that key. *)
Inductive json : Type :=
| JNone
| JBool (b : bool)
| JInt (n : Z)
| JFloat
| JString (s : str)
| JList (l : list json)
| JDict (d : list (str * json)).

(** [obj[key]] for a [str] key: a lookup in a [dict] ([KeyError] when the
    key is missing), [TypeError] for every other kind of object. *)
Definition getitem (obj : json) (key : string) : outcome json :=
  match obj with
  | JDict d =>
      match find (fun kv => str_eqb (fst kv) (lit key)) d with
      | Some kv => Return (snd kv)
      | None => Raise KeyError
      end
  | _ => Raise TypeError
  end.

Module Datetime.

Record datetime : Type := mk {
  year : Z; month : Z; day : Z;
  hour : Z; minute : Z; second : Z; microsecond : Z }.

Definition is_leap (y : Z) : bool :=
  (y mod 4 =? 0) && (negb (y mod 100 =? 0) || (y mod 400 =? 0)).

Definition days_in_month (y m : Z) : Z :=
  if m =? 2 then (if is_leap y then 29 else 28)
  else if (m =? 4) || (m =? 6) || (m =? 9) || (m =? 11) then 30
  else 31.

Definition days_before_year (y : Z) : Z :=
  let y1 := y - 1 in y1 * 365 + y1 / 4 - y1 / 100 + y1 / 400.

Definition days_before_month (y m : Z) : Z :=
  fold_right Z.add 0
    (map (days_in_month y) (map Z.of_nat (seq 1 (Z.to_nat (m - 1))))).

Definition toordinal (t : datetime) : Z :=
  days_before_year (year t) + days_before_month (year t) (month t) + day t.

(** Microseconds since the start of day 0 of the proleptic calendar. *)
Definition to_microseconds (t : datetime) : Z :=
  ((toordinal t * 86400 + hour t * 3600 + minute t * 60 + second t)
   * 1000000) + microsecond t.

(** [(a - b)] as a [timedelta], in microseconds. *)
Definition sub (a b : datetime) : Z := to_microseconds a - to_microseconds b.

(** An argument of the constructor: an [int] (or a [bool], its subclass)
    that fits a C [int]. *)
Definition as_int (v : json) : outcome Z :=
  match v with
  | JInt n =>
      if (- 2 ^ 31 <=? n) && (n <? 2 ^ 31) then Return n
      else Raise OverflowError
  | JBool b => Return (if b then 1 else 0)
  | _ => Raise TypeError
  end.

Definition in_range (lo v hi : Z) : outcome unit :=
  if (lo <=? v) && (v <=? hi) then Return tt else Raise ValueError.

(** [datetime(year, month, day, hour, minute, second)]: the arguments are
    converted first, then range-checked; [microsecond] defaults to 0. *)
Definition new (vy vm vd vh vmi vs : json) : outcome datetime :=
  (y <- as_int vy ; m <- as_int vm ; d <- as_int vd ;
   h <- as_int vh ; mi <- as_int vmi ; s <- as_int vs ;
   _ <- in_range 1 y 9999 ;
   _ <- in_range 1 m 12 ;
   _ <- in_range 1 d (days_in_month y m) ;
   _ <- in_range 0 h 23 ;
   _ <- in_range 0 mi 59 ;
   _ <- in_range 0 s 59 ;
   Return (mk y m d h mi s 0))%py.

End Datetime.
Import Datetime.

(** [abs(delta.total_seconds()) > 60].  [total_seconds] is the correctly
    rounded quotient of the microsecond count by [10**6]; rounding is
    monotone and 60 and 60.000001 round to different floats, so the
    comparison on floats is the comparison of the integer microsecond
    count with 60 000 000. *)
Definition drift_exceeds_60s (delta : Z) : bool := Z.abs delta >? 60 * 1000000.

Definition str_of_int (n : Z) : str :=
  lit (DecimalString.NilZero.string_of_int (Z.to_int n)).

(** [json.dumps] of the dictionary built on line 142:
    [{"time": {"set_timezone": {"year": .., .., "index": 41}}}]. *)
Definition set_timezone_cmd (time : datetime) : str :=
  let field k v := quoted k ++ lit ": " ++ str_of_int v in
  lit "{" ++ quoted "time" ++ lit ": {" ++ quoted "set_timezone" ++ lit ": {"
  ++ field "year"%string (year time) ++ lit ", "
  ++ field "month"%string (month time) ++ lit ", "
  ++ field "mday"%string (day time) ++ lit ", "
  ++ field "hour"%string (hour time) ++ lit ", "
  ++ field "min"%string (minute time) ++ lit ", "
  ++ field "sec"%string (second time) ++ lit ", "
  ++ field "index"%string 41 ++ lit "}}}".

(** ** The outside world

    Everything the program observes or causes outside of its own
    variables: the fate of each socket it opens, the readings of the
    local clock, and the chronological trace of calls and log records. *)

Inductive oserror : Type :=
| ECONNREFUSED
| EHOSTUNREACH
| ETIMEDOUT
| EOTHER.

(** How the calls on one socket turn out.  [None] is a normal return,
    [Some err] raises [socket.error].  [x_recv] is the data a successful
    [recv] has available.

    Every call of an [exchange] returns or raises.  After
    [settimeout(None)] the [recv] of line 126 may also block for ever
    when the device stays silent: such a run has no [exchange], so what
    is stated below about a run holds of the runs in which every socket
    call comes back, and says nothing about whether it does. *)
Record exchange : Type := {
  x_socket : option oserror;
  x_connect : option oserror;
  x_send : option oserror;
  x_recv : oserror + bytes;
  x_close : option oserror }.

Inductive level : Type := INFO | ERROR.

Inductive message : Type :=
| CouldNotConnect (ip : string) (port : Z)
| OldTime (t : datetime)
| NewTime (t : datetime)
| Text (decrypted : option str)
| TimeOk
| Sent (cmd : str)
| Received (decrypted : option str)
| Traceback (e : exn).

(** The calls and log records of a run.  [EvSetTimeoutArg] marks that
    line 122, [sock_tcp.settimeout(int(args.timeout))], is reached: it is
    recorded also when [int] raises before [settimeout] is entered. *)
Inductive event : Type :=
| EvSocket
| EvSetTimeoutArg
| EvSetTimeoutNone
| EvConnect (ip : string) (port : Z)
| EvSend (data : bytes)
| EvRecv (bufsize : Z)
| EvClose
| EvNow
| EvLog (lvl : level) (m : message)
| EvSleep (secs : Z).

(** What [sock_tcp.settimeout(int(args.timeout))] raises for a bad
    [args.timeout]: [ValueError] when it is not an integer literal or is
    negative, [OverflowError] when it does not fit a C [timeval]. *)
Inductive timeout_fault : Type :=
| BadTimeout
| HugeTimeout.

Definition timeout_exn (f : timeout_fault) : exn :=
  match f with
  | BadTimeout => ValueError
  | HugeTimeout => OverflowError
  end.

(** The parsed arguments and the environment of one run.
    [settimeout_arg] is [None] when [args.timeout] is accepted, and is
    fixed for the run.  [net n] is the fate of the [n]-th socket opened,
    [now n] the [n]-th reading of the local clock. *)
Record env : Type := {
  ip : string;
  port : Z;
  quiet : bool;
  settimeout_arg : option timeout_fault;
  net : nat -> exchange;
  now : nat -> datetime;
  json_loads : str -> outcome json }.

Record world : Type := {
  sockets : nat;
  clock : nat;
  trace : list event }.

Definition M (A : Type) : Type := world -> outcome A * world.

Definition ret {A} (a : A) : M A := fun w => (Return a, w).

Definition raise {A} (e : exn) : M A := fun w => (Raise e, w).

Definition bind {A B} (c : M A) (k : A -> M B) : M B :=
  fun w =>
    match c w with
    | (Return a, w') => k a w'
    | (Raise e, w') => (Raise e, w')
    end.

Definition lift {A} (o : outcome A) : M A := fun w => (o, w).

Declare Scope io_scope.
Delimit Scope io_scope with io.
Notation "x <- c ;; k" := (bind c (fun x => k))
  (at level 61, c at next level, right associativity) : io_scope.
Notation "c ;; k" := (bind c (fun _ => k))
  (at level 61, right associativity) : io_scope.

Inductive exc_class : Type := ClsException | ClsSocketError.

(** [isinstance(e, cls)] for the two classes named in [except] clauses. *)
Definition isinstance (e : exn) (cls : exc_class) : bool :=
  match cls, e with
  | ClsException, _ => true
  | ClsSocketError, SocketError => true
  | ClsSocketError, _ => false
  end.

(** [try: body  except cls as e: handler(e)]. *)
Definition try_except {A} (body : M A) (cls : exc_class)
    (handler : exn -> M A) : M A :=
  fun w =>
    match body w with
    | (Return a, w') => (Return a, w')
    | (Raise e, w') =>
        if isinstance e cls then handler e w' else (Raise e, w')
    end.

Definition emit (e : event) : M unit :=
  fun w => (Return tt,
            {| sockets := sockets w; clock := clock w;
               trace := trace w ++ [e] |}).

Definition logging (lvl : level) (m : message) : M unit := emit (EvLog lvl m).

(** A call on a socket: recorded, then it returns or raises
    [socket.error]. *)
Definition sockcall (e : event) (fate : option oserror) : M unit :=
  (emit e ;;
   match fate with
   | None => ret tt
   | Some _ => raise SocketError
   end)%io.

(** [socket.socket(AF_INET, SOCK_STREAM)]: the socket object is identified
    with its fate. *)
Definition socket_socket (E : env) : M exchange :=
  fun w =>
    let x := net E (sockets w) in
    let w' := {| sockets := S (sockets w); clock := clock w;
                 trace := trace w ++ [EvSocket] |} in
    match x_socket x with
    | None => (Return x, w')
    | Some _ => (Raise SocketError, w')
    end.

(** [sock.recv(bufsize)]: at most [bufsize] bytes of what is available.
    A call that never returns is not represented (see [exchange]). *)
Definition sock_recv (x : exchange) (bufsize : Z) : M bytes :=
  (emit (EvRecv bufsize) ;;
   match x_recv x with
   | inr data => ret (firstn (Z.to_nat bufsize) data)
   | inl _ => raise SocketError
   end)%io.

(** [datetime.now()]. *)
Definition datetime_now (E : env) : M datetime :=
  fun w =>
    (Return (now E (clock w)),
     {| sockets := sockets w; clock := S (clock w);
        trace := trace w ++ [EvNow] |}).

(** ** Transport *)

Definition send_command (E : env) (cmd : str) : M (option str) :=
  try_except
    (sock_tcp <- socket_socket E ;;
     emit EvSetTimeoutArg ;;
     match settimeout_arg E with
     | None => ret tt
     | Some f => raise (timeout_exn f)
     end ;;
     sockcall (EvConnect (ip E) (port E)) (x_connect sock_tcp) ;;
     emit EvSetTimeoutNone ;;
     frame <- lift (Codec.encrypt cmd) ;;
     sockcall (EvSend frame) (x_send sock_tcp) ;;
     data <- sock_recv sock_tcp 2048 ;;
     sockcall EvClose (x_close sock_tcp) ;;
     let decrypted := Codec.decrypt (skipn 4 data) in
     ret (Some decrypted))%io
    ClsSocketError
    (fun _ =>
       (logging ERROR (CouldNotConnect (ip E) (port E)) ;;
        ret None)%io).

(** *** How one exchange can go *)

Inductive stage : Type := AtSocket | AtConnect | AtSend | AtRecv | AtClose.

(** [fails_at E cmd x s err]: on a socket of fate [x], the call of stage
    [s] is reached and raises [socket.error] with [err]. *)
Definition fails_at (E : env) (cmd : str) (x : exchange) (s : stage)
    (err : oserror) : Prop :=
  match s with
  | AtSocket => x_socket x = Some err
  | AtConnect =>
      x_socket x = None /\ settimeout_arg E = None /\ x_connect x = Some err
  | AtSend =>
      x_socket x = None /\ settimeout_arg E = None /\ x_connect x = None /\
      (exists frame, Codec.encrypt cmd = Return frame) /\ x_send x = Some err
  | AtRecv =>
      x_socket x = None /\ settimeout_arg E = None /\ x_connect x = None /\
      (exists frame, Codec.encrypt cmd = Return frame) /\ x_send x = None /\
      x_recv x = inl err
  | AtClose =>
      x_socket x = None /\ settimeout_arg E = None /\ x_connect x = None /\
      (exists frame, Codec.encrypt cmd = Return frame) /\ x_send x = None /\
      (exists data, x_recv x = inr data) /\ x_close x = Some err
  end.

(** [completes E cmd x data]: every call succeeds and [data] is what the
    peer has made available to [recv]. *)
Definition completes (E : env) (cmd : str) (x : exchange) (data : bytes)
  : Prop :=
  x_socket x = None /\ settimeout_arg E = None /\ x_connect x = None /\
  (exists frame, Codec.encrypt cmd = Return frame) /\ x_send x = None /\
  x_recv x = inr data /\ x_close x = None.

(** ** Time-sync cycle *)

(** Truth value of [rsp], which is [None] or a [str]. *)
Definition truthy (rsp : option str) : bool :=
  match rsp with
  | Some (_ :: _) => true
  | _ => false
  end.

(** Line 138: [json.loads(rsp)["time"]["get_time"]]. *)
Definition reply_get_time (E : env) (rsp : str) : outcome json :=
  (j <- json_loads E rsp ;
   jt <- getitem j "time" ;
   getitem jt "get_time")%py.

(** Line 140: the six lookups, left to right, then the constructor. *)
Definition reply_datetime (rsp : json) : outcome datetime :=
  (vy <- getitem rsp "year" ;
   vm <- getitem rsp "month" ;
   vd <- getitem rsp "mday" ;
   vh <- getitem rsp "hour" ;
   vmi <- getitem rsp "min" ;
   vs <- getitem rsp "sec" ;
   Datetime.new vy vm vd vh vmi vs)%py.

(** Lines 141-148, once both snapshots are at hand. *)
Definition reconcile (E : env) (time time_remote : datetime) : M unit :=
  (if drift_exceeds_60s (Datetime.sub time_remote time) then
     let cmd := set_timezone_cmd time in
     decrypted <- send_command E cmd ;;
     logging INFO (OldTime time_remote) ;;
     logging INFO (NewTime time) ;;
     logging INFO (Text decrypted)
   else
     logging INFO TimeOk)%io.

Definition update_time (E : env) : M unit :=
  try_except
    (rsp <- send_command E commands_time ;;
     if truthy rsp then
       match rsp with
       | Some text =>
           rsp <- lift (reply_get_time E text) ;;
           time <- datetime_now E ;;
           time_remote <- lift (reply_datetime rsp) ;;
           reconcile E time time_remote
       | None => ret tt
       end
     else
       ret tt)%io
    ClsException
    (fun e => logging ERROR (Traceback e)).

(** The exogenous failures of a cycle, by what the poll produced: the
    error result of the transport, an exception out of it, a reply that
    does not parse, or a parsed reply without a usable time. *)
Inductive cycle_failure (E : env) : outcome (option str) -> Prop :=
| TransportFailure : cycle_failure E (Return None)
| PollRaises (e : exn) : cycle_failure E (Raise e)
| MalformedReply (text : str) (e : exn) :
    reply_get_time E text = Raise e ->
    cycle_failure E (Return (Some text))
| MissingFields (text : str) (g : json) (e : exn) :
    reply_get_time E text = Return g ->
    reply_datetime g = Raise e ->
    cycle_failure E (Return (Some text)).

(** [sleep(secs)]. *)
Definition sleep (secs : Z) : M unit := emit (EvSleep secs).

(** The first [n] iterations of [while True: update_time(); sleep(5)]. *)
Fixpoint time_updater (E : env) (n : nat) : M unit :=
  match n with
  | O => ret tt
  | S k => (update_time E ;; sleep 5 ;; time_updater E k)%io
  end.

(** The one-shot path (lines 155-161). *)
Definition normal_command (E : env) (cmd : str) : M unit :=
  (decrypted <- send_command E cmd ;;
   if quiet E then logging INFO (Text decrypted)
   else (logging INFO (Sent cmd) ;; logging INFO (Received decrypted)))%io.

(** *** Observations on a trace *)

(** Every call of [send_command] opens one socket before anything else,
    so the sockets opened between two worlds count the requests made. *)
Definition requests_between (w w' : world) : Z :=
  Z.of_nat (sockets w') - Z.of_nat (sockets w).

Definition is_connect (e : event) : bool :=
  match e with EvConnect _ _ => true | _ => false end.

Definition is_socket (e : event) : bool :=
  match e with EvSocket => true | _ => false end.

Definition is_sleep (e : event) : bool :=
  match e with EvSleep _ => true | _ => false end.

(** The number of [sleep] calls recorded. *)
Definition sleeps (t : list event) : nat := length (filter is_sleep t).

(** [awake c]: running [c] never sleeps. *)
Definition awake {A} (c : M A) : Prop :=
  forall w, sleeps (trace (snd (c w))) = sleeps (trace w).

(** The frames handed to [send], in order. *)
Fixpoint frames (t : list event) : list bytes :=
  match t with
  | [] => []
  | EvSend f :: t' => f :: frames t'
  | _ :: t' => frames t'
  end.

(** The log records, in order. *)
Fixpoint logs (t : list event) : list (level * message) :=
  match t with
  | [] => []
  | EvLog l m :: t' => (l, m) :: logs t'
  | _ :: t' => logs t'
  end.

(** The number of connection attempts recorded. *)
Definition connects (t : list event) : nat := length (filter is_connect t).

Definition is_close (e : event) : bool :=
  match e with EvClose => true | _ => false end.

(** The number of [close] calls recorded. *)
Definition closes (t : list event) : nat := length (filter is_close t).

(** [reaches_close E cmd x]: on a socket of fate [x] every call before
    [close] succeeds. *)
Definition reaches_close (E : env) (cmd : str) (x : exchange) : Prop :=
  x_socket x = None /\ settimeout_arg E = None /\ x_connect x = None /\
  (exists frame, Codec.encrypt cmd = Return frame) /\ x_send x = None /\
  (exists data, x_recv x = inr data).

(** [emits P c]: whatever [c] adds to the trace satisfies [P]. *)
Definition emits (P : event -> Prop) {A} (c : M A) : Prop :=
  forall w, exists evs, trace (snd (c w)) = trace w ++ evs /\ Forall P evs.

(** The calls the program makes with arguments it fixes itself: every
    connection goes to the configured host and port, every [recv] asks for
    2048 bytes, every [sleep] lasts 5 seconds. *)
Definition expected_call (E : env) (e : event) : Prop :=
  match e with
  | EvConnect i p => i = ip E /\ p = port E
  | EvRecv bufsize => bufsize = 2048
  | EvSleep secs => secs = 5
  | _ => True
  end.

(** The field names looked up on line 140. *)
Definition time_fields : list string :=
  ["year"; "month"; "mday"; "hour"; "min"; "sec"]%string.

(** The values [datetime] objects take: what [datetime.now()] returns and
    what the constructor accepts. *)
Definition valid_datetime (t : datetime) : Prop :=
  1 <= year t <= 9999 /\ 1 <= month t <= 12 /\
  1 <= day t <= Datetime.days_in_month (year t) (month t) /\
  0 <= hour t <= 23 /\ 0 <= minute t <= 59 /\ 0 <= second t <= 59 /\
  0 <= microsecond t <= 999999.

(** The world when the program starts. *)
Definition world0 : world := {| sockets := 0; clock := 0; trace := [] |}.

(** ** Command line (lines 34-50, 92-116 and 154-167)

    What the program needs from the platform while it reads its
    arguments: whether [socket.gethostbyname] resolves a name ([false]:
    it raises [socket.error]), [int] on a [str] ([None]: [ValueError]),
    and whether a timeout fits a C [timeval].

    [gethostbyname] can also raise [UnicodeError] on a name that has no
    IDNA encoding.  That is no [socket.error]: [argparse] catches it as a
    [ValueError] and words the message itself, with the same exit status
    2.  Here [false] covers that name too, so for it [validHostname]
    gives [InvalidHostname] where the program prints the message of
    [argparse]; which command lines are accepted does not depend on
    it. *)
Record platform : Type := {
  gethostbyname : string -> bool;
  int_of_str : str -> option Z;
  timeout_fits : Z -> bool }.

(** [parser.error(message)] prints the usage and the message and exits
    with status 2: with the message of [validHostname], with that of
    [validPort], or with one that [argparse] words itself. *)
Inductive parser_exit : Type :=
| InvalidHostname
| InvalidPortNumber
| UsageError.

Inductive parsed (A : Type) : Type :=
| Accepted (a : A)
| ParserError (why : parser_exit).
Arguments Accepted {A} a.
Arguments ParserError {A} why.

Definition validHostname (P : platform) (hostname : string) : parsed string :=
  if gethostbyname P hostname then Accepted hostname
  else ParserError InvalidHostname.

Definition validPort (P : platform) (port : str) : parsed Z :=
  match int_of_str P port with
  | None => ParserError InvalidPortNumber
  | Some port =>
      if (port <=? 1024) || (port >? 65535) then ParserError InvalidPortNumber
      else Accepted port
  end.

(** [args.timeout]: the default, the [int] 10, or the text given with
    [--timeout], which no [type=] converts. *)
Inductive timeout_value : Type :=
| TimeoutDefault
| TimeoutText (text : str).

(** The options found on the command line, in order.  Splitting the
    words into options and reporting unknown ones is left to [argparse];
    [-h] is not among them. *)
Inductive cli_option : Type :=
| OptTarget (hostname : string)
| OptPort (port : str)
| OptQuiet
| OptTimeout (timeout : str)
| OptCommand (name : string)
| OptJson (json : str)
| OptKeepTimeUpdated.

Module Args.

(** The namespace while the options are consumed; it starts from the
    defaults. *)
Record partial : Type := mk_partial {
  p_target : option string;
  p_port : Z;
  p_quiet : bool;
  p_timeout : timeout_value;
  p_command : option string;
  p_json : option str;
  p_keep_time_updated : bool }.

(** The namespace [parse_args] returns: [target] is required. *)
Record namespace : Type := mk {
  target : string;
  port : Z;
  quiet : bool;
  timeout : timeout_value;
  command : option string;
  json : option str;
  keep_time_updated : bool }.

Definition defaults : partial :=
  {| p_target := None; p_port := 9999; p_quiet := false;
     p_timeout := TimeoutDefault; p_command := None; p_json := None;
     p_keep_time_updated := false |}.

End Args.

(** [name in commands]. *)
Definition in_commands (name : string) : bool :=
  existsb (fun kv => String.eqb (fst kv) name) commands.

Definition is_some {A} (o : option A) : bool :=
  match o with Some _ => true | None => false end.

(** One option is taken: its value is converted by the [type=] function
    and checked against [choices=], then refused when another member of
    the mutually exclusive group was given before, then stored. *)
Definition take (P : platform) (a : Args.partial) (o : cli_option)
  : parsed Args.partial :=
  let '(Args.mk_partial tg po qu ti co js ke) := a in
  match o with
  | OptTarget hostname =>
      match validHostname P hostname with
      | Accepted h => Accepted (Args.mk_partial (Some h) po qu ti co js ke)
      | ParserError why => ParserError why
      end
  | OptPort port =>
      match validPort P port with
      | Accepted n => Accepted (Args.mk_partial tg n qu ti co js ke)
      | ParserError why => ParserError why
      end
  | OptQuiet => Accepted (Args.mk_partial tg po true ti co js ke)
  | OptTimeout t => Accepted (Args.mk_partial tg po qu (TimeoutText t) co js ke)
  | OptCommand name =>
      if negb (in_commands name) then ParserError UsageError
      else if is_some js || ke then ParserError UsageError
      else Accepted (Args.mk_partial tg po qu ti (Some name) js ke)
  | OptJson j =>
      if is_some co || ke then ParserError UsageError
      else Accepted (Args.mk_partial tg po qu ti co (Some j) ke)
  | OptKeepTimeUpdated =>
      if is_some co || is_some js then ParserError UsageError
      else Accepted (Args.mk_partial tg po qu ti co js true)
  end.

Fixpoint consume (P : platform) (a : Args.partial) (opts : list cli_option)
  : parsed Args.partial :=
  match opts with
  | [] => Accepted a
  | o :: rest =>
      match take P a o with
      | Accepted a' => consume P a' rest
      | ParserError why => ParserError why
      end
  end.

(** [parser.parse_args()]: the options are consumed in order, then the
    required [-t] and the required group are checked. *)
Definition parse_args (P : platform) (opts : list cli_option)
  : parsed Args.namespace :=
  match consume P Args.defaults opts with
  | ParserError why => ParserError why
  | Accepted a =>
      match Args.p_target a with
      | None => ParserError UsageError
      | Some h =>
          if is_some (Args.p_command a) || is_some (Args.p_json a)
             || Args.p_keep_time_updated a
          then Accepted
                 (Args.mk h (Args.p_port a) (Args.p_quiet a) (Args.p_timeout a)
                    (Args.p_command a) (Args.p_json a)
                    (Args.p_keep_time_updated a))
          else ParserError UsageError
      end
  end.

(** Lines 113-116: [cmd] is [args.json], or the catalog entry when a
    command name was given. *)
Definition select_cmd (args : Args.namespace) : outcome (option str) :=
  match Args.command args with
  | None => Return (Args.json args)
  | Some name => (body <- commands_get name ; Return (Some body))%py
  end.

(** What [sock_tcp.settimeout(int(args.timeout))] will do. *)
Definition timeout_check (P : platform) (t : timeout_value)
  : option timeout_fault :=
  match match t with
        | TimeoutDefault => Some 10
        | TimeoutText text => int_of_str P text
        end with
  | None => Some BadTimeout
  | Some v =>
      if v <? 0 then Some BadTimeout
      else if timeout_fits P v then None
      else Some HugeTimeout
  end.

(** The network, the clock and [json.loads] of one run. *)
Record oracles : Type := {
  o_net : nat -> exchange;
  o_now : nat -> datetime;
  o_json_loads : str -> outcome json }.

Definition env_of (P : platform) (O : oracles) (args : Args.namespace) : env :=
  {| ip := Args.target args; port := Args.port args;
     quiet := Args.quiet args;
     settimeout_arg := timeout_check P (Args.timeout args);
     net := o_net O; now := o_now O; json_loads := o_json_loads O |}.

(** The script from [parse_args] on, observed for [n] iterations of the
    loop.  A [cmd] that is [None] reaches [send_command] in no run (lemma
    [one_shot_has_cmd]); [len(None)] would raise [TypeError]. *)
Definition script (P : platform) (O : oracles) (opts : list cli_option)
    (n : nat) : parsed (outcome unit * world) :=
  match parse_args P opts with
  | ParserError why => ParserError why
  | Accepted args =>
      let E := env_of P O args in
      Accepted
        match select_cmd args with
        | Raise e => (Raise e, world0)
        | Return cmd =>
            if negb (Args.keep_time_updated args) then
              match cmd with
              | Some c => normal_command E c world0
              | None => (Raise TypeError, world0)
              end
            else time_updater E n world0
        end
  end.

(** What holds of the namespace after every option taken: the target
    resolves, the port is in range, the command is a catalog name, and no
    two members of the group are set. *)
Definition consistent (P : platform) (a : Args.partial) : Prop :=
  (forall h, Args.p_target a = Some h -> gethostbyname P h = true) /\
  1025 <= Args.p_port a <= 65535 /\
  (forall c, Args.p_command a = Some c -> in_commands c = true) /\
  (is_some (Args.p_command a) && is_some (Args.p_json a) = false) /\
  (is_some (Args.p_command a) && Args.p_keep_time_updated a = false) /\
  (is_some (Args.p_json a) && Args.p_keep_time_updated a = false).

(** [-p] or [--port]. *)
Definition is_port_option (o : cli_option) : bool :=
  match o with
  | OptPort _ => true
  | _ => false
  end.

(** Where the program may connect: a host that resolved when the
    arguments were read, on a port from 1025 to 65535. *)
Definition validated_target (P : platform) (e : event) : Prop :=
  match e with
  | EvConnect i p => gethostbyname P i = true /\ 1025 <= p <= 65535
  | _ => True
  end.

(** ** Sample runs

    Concrete environments on which the statements below are exercised. *)

(** A device that accepts the connection and answers with [data]. *)
Definition answering (data : bytes) : exchange :=
  {| x_socket := None; x_connect := None; x_send := None;
     x_recv := inr data; x_close := None |}.

(** Nothing listens at the address. *)
Definition refusing : exchange :=
  {| x_socket := None; x_connect := Some ECONNREFUSED; x_send := None;
     x_recv := inl ECONNREFUSED; x_close := None |}.

Definition noon : datetime := Datetime.mk 2024 1 1 12 0 0 0.

(** The parsed form of a time reply that reports [hh:mm:ss] on
    2024-01-01. *)
Definition get_time_reply (hh mm ss : Z) : json :=
  JDict [(lit "err_code", JInt 0);
         (lit "year", JInt 2024); (lit "month", JInt 1);
         (lit "mday", JInt 1); (lit "hour", JInt hh);
         (lit "min", JInt mm); (lit "sec", JInt ss)].

Definition time_reply (hh mm ss : Z) : json :=
  JDict [(lit "time", JDict [(lit "get_time", get_time_reply hh mm ss)])].

(** A [json.loads] for the sample runs: the two-character text [{}]
    stands for a reply that reports [hh:mm:ss]; nothing else parses. *)
Definition device_reports (hh mm ss : Z) (text : str) : outcome json :=
  if str_eqb text (lit "{}") then Return (time_reply hh mm ss)
  else Raise JSONDecodeError.

Definition sample_env (x : nat -> exchange) (loads : str -> outcome json)
  : env :=
  {| ip := "192.168.0.1"; port := 9999; quiet := false;
     settimeout_arg := None; net := x; now := fun _ => noon;
     json_loads := loads |}.

(** A platform for the sample runs: one host resolves, [int] reads
    plain decimal digits, timeouts fit 31 bits. *)
Fixpoint decimal_digits (acc : Z) (s : str) : option Z :=
  match s with
  | [] => Some acc
  | c :: rest =>
      if (48 <=? c) && (c <=? 57) then decimal_digits (10 * acc + (c - 48)) rest
      else None
  end.

Definition sample_platform : platform :=
  {| gethostbyname := fun h => String.eqb h "192.168.0.1";
     int_of_str := fun s => match s with
                            | [] => None
                            | _ => decimal_digits 0 s
                            end;
     timeout_fits := fun v => v <? 2 ^ 31 |}.

Definition sample_oracles (x : nat -> exchange) : oracles :=
  {| o_net := x; o_now := fun _ => noon;
     o_json_loads := fun _ => Raise JSONDecodeError |}.

(** * Properties of the codec *)

Module CodecFacts.
Import Codec.

Lemma is_byte_iff (a : Z) : is_byte a = true <-> 0 <= a < 256.
Proof.
  unfold is_byte. rewrite andb_true_iff, Z.leb_le, Z.ltb_lt. tauto.
Qed.

Lemma is_bytes_cons (a : Z) (s : list Z) :
  is_bytes (a :: s) = true <-> 0 <= a < 256 /\ is_bytes s = true.
Proof.
  unfold is_bytes. simpl. rewrite andb_true_iff, is_byte_iff. tauto.
Qed.

Lemma byte_high_bits (a n : Z) :
  0 <= a < 256 -> 8 <= n -> Z.testbit a n = false.
Proof.
  intros Ha Hn. rewrite <- (Z.mod_small a (2 ^ 8)) by (change (2 ^ 8) with 256; lia).
  apply Z.mod_pow2_bits_high. lia.
Qed.

Lemma lxor_byte (a b : Z) :
  0 <= a < 256 -> 0 <= b < 256 -> 0 <= Z.lxor a b < 256.
Proof.
  intros Ha Hb.
  assert (Hnn : 0 <= Z.lxor a b) by (apply Z.lxor_nonneg; lia).
  split; [exact Hnn|].
  assert (Hmod : Z.lxor a b = Z.lxor a b mod 2 ^ 8).
  { apply Z.bits_inj'. intros n Hn. destruct (Z_lt_le_dec n 8) as [Hlo|Hhi].
    - rewrite Z.mod_pow2_bits_low by lia. reflexivity.
    - rewrite Z.mod_pow2_bits_high by lia.
      rewrite Z.lxor_spec, !byte_high_bits by assumption. reflexivity. }
  rewrite Hmod. change (2 ^ 8) with 256. apply Z.mod_pos_bound. lia.
Qed.

Lemma lxor_cancel (k a : Z) : Z.lxor k (Z.lxor k a) = a.
Proof.
  rewrite <- Z.lxor_assoc, Z.lxor_nilpotent, Z.lxor_0_l. reflexivity.
Qed.

(** A character above U+00FF makes [bytes([a])] raise, whatever the key. *)
Lemma lxor_not_byte (k i : Z) :
  0 <= k < 256 -> is_byte i = false -> is_byte (Z.lxor k i) = false.
Proof.
  intros Hk Hi. destruct (is_byte (Z.lxor k i)) eqn:Hx; [|reflexivity].
  apply is_byte_iff in Hx. pose proof (lxor_byte k _ Hk Hx) as H.
  rewrite lxor_cancel in H. apply is_byte_iff in H. congruence.
Qed.

(** The loop of [encrypt] appends [encrypt_stream key string] to the
    buffer it is entered with. *)
Lemma encrypt_loop_stream (string : str) :
  forall key result,
    is_bytes string = true -> 0 <= key < 256 ->
    encrypt_loop key result string
    = Return (result ++ encrypt_stream key string).
Proof.
  induction string as [|i rest IH]; intros key result Hs Hk; simpl.
  - rewrite app_nil_r. reflexivity.
  - apply is_bytes_cons in Hs. destruct Hs as [Hi Hrest].
    pose proof (lxor_byte key i Hk Hi) as Ha.
    unfold bytes1. rewrite (proj2 (is_byte_iff _) Ha). simpl.
    rewrite IH by assumption. rewrite <- app_assoc. reflexivity.
Qed.

(** Conversely the loop returns only on byte strings. *)
Lemma encrypt_loop_returns (string : str) :
  forall key result out,
    0 <= key < 256 ->
    encrypt_loop key result string = Return out ->
    is_bytes string = true.
Proof.
  induction string as [|i rest IH]; intros key result out Hk H; simpl in H.
  - reflexivity.
  - unfold bytes1 in H. destruct (is_byte (Z.lxor key i)) eqn:Ha; simpl in H.
    + destruct (is_byte i) eqn:Hi.
      * apply is_bytes_cons. split; [apply is_byte_iff; exact Hi|].
        apply is_byte_iff in Ha. eapply IH; eassumption.
      * rewrite (lxor_not_byte key i Hk Hi) in Ha. discriminate.
    + discriminate.
Qed.

Lemma decrypt_loop_stream (string : bytes) :
  forall key result,
    decrypt_loop key result string = result ++ decrypt_stream key string.
Proof.
  induction string as [|i rest IH]; intros key result; simpl.
  - rewrite app_nil_r. reflexivity.
  - rewrite IH, <- app_assoc. reflexivity.
Qed.

Lemma decrypt_stream_eq (string : bytes) :
  decrypt string = decrypt_stream 171 string.
Proof. unfold decrypt. apply decrypt_loop_stream. Qed.

Lemma stream_roundtrip (string : str) :
  forall key, decrypt_stream key (encrypt_stream key string) = string.
Proof.
  induction string as [|i rest IH]; intros key; simpl.
  - reflexivity.
  - rewrite lxor_cancel, IH. reflexivity.
Qed.

Lemma encrypt_stream_length (string : str) :
  forall key, length (encrypt_stream key string) = length string.
Proof.
  induction string as [|i rest IH]; intros key; simpl; [|rewrite IH];
    reflexivity.
Qed.

Lemma decrypt_stream_length (string : bytes) :
  forall key, length (decrypt_stream key string) = length string.
Proof.
  induction string as [|i rest IH]; intros key; simpl; [|rewrite IH];
    reflexivity.
Qed.

(** Position by position, the key is the start key or the previous
    ciphertext byte. *)
Lemma encrypt_stream_nth (p : str) :
  forall key j, (j < length p)%nat ->
    nth j (encrypt_stream key p) 0
    = Z.lxor (nth j p 0)
        (match j with O => key | S j' => nth j' (encrypt_stream key p) 0 end).
Proof.
  induction p as [|i rest IH]; intros key j Hj; simpl in Hj; [lia|].
  destruct j as [|j]; simpl.
  - apply Z.lxor_comm.
  - rewrite IH by lia. destruct j; reflexivity.
Qed.

Lemma decrypt_stream_nth (c : bytes) :
  forall key j, (j < length c)%nat ->
    nth j (decrypt_stream key c) 0
    = Z.lxor (nth j c 0) (match j with O => key | S j' => nth j' c 0 end).
Proof.
  induction c as [|i rest IH]; intros key j Hj; simpl in Hj; [lia|].
  destruct j as [|j]; simpl.
  - apply Z.lxor_comm.
  - rewrite IH by lia. destruct j; reflexivity.
Qed.

Lemma encrypt_stream_autokey (p : str) : autokey p (encrypt_stream 171 p).
Proof.
  split; [apply encrypt_stream_length|].
  intros j Hj. rewrite encrypt_stream_nth by assumption.
  destruct j; reflexivity.
Qed.

Lemma decrypt_stream_autokey (c : bytes) :
  autokey_inv c (decrypt_stream 171 c).
Proof.
  split; [apply decrypt_stream_length|].
  intros j Hj. rewrite decrypt_stream_nth by assumption.
  destruct j; reflexivity.
Qed.

(** The output of [decrypt] on a [bytes] object is made of characters
    below U+0100, so [chr] is defined on every [a]. *)
Lemma decrypt_stream_bytes (c : bytes) :
  forall key, 0 <= key < 256 -> is_bytes c = true ->
    is_bytes (decrypt_stream key c) = true.
Proof.
  induction c as [|i rest IH]; intros key Hk Hc; simpl; [reflexivity|].
  apply is_bytes_cons in Hc. destruct Hc as [Hi Hrest].
  apply is_bytes_cons. split; [apply lxor_byte; assumption|].
  apply IH; assumption.
Qed.

Lemma decrypt_chr_defined (c : bytes) :
  is_bytes c = true -> is_bytes (decrypt c) = true.
Proof.
  intros Hc. rewrite decrypt_stream_eq. apply decrypt_stream_bytes; [lia|exact Hc].
Qed.

Lemma pack_I_unpack (n : Z) :
  0 <= n < 2 ^ 32 ->
  exists hdr, pack_I n = Return hdr /\ length hdr = 4%nat /\ unpack_I hdr = n.
Proof.
  intros Hn. unfold pack_I.
  replace ((0 <=? n) && (n <? 2 ^ 32)) with true
    by (symmetry; apply andb_true_iff; rewrite Z.leb_le, Z.ltb_lt; exact Hn).
  eexists. split; [reflexivity|]. split; [reflexivity|].
  unfold unpack_I.
  change 255 with (Z.ones 8). rewrite !Z.land_ones by lia.
  rewrite !Z.shiftr_div_pow2 by lia.
  change (2 ^ 32) with 4294967296 in Hn.
  change (2 ^ 24) with 16777216. change (2 ^ 16) with 65536.
  change (2 ^ 8) with 256.
  Z.div_mod_to_equations. lia.
Qed.

Lemma pack_I_raises (n : Z) : 2 ^ 32 <= n -> pack_I n = Raise StructError.
Proof.
  intros Hn. unfold pack_I.
  replace (n <? 2 ^ 32) with false by (symmetry; apply Z.ltb_ge; exact Hn).
  rewrite andb_false_r. reflexivity.
Qed.

(** [encrypt] raises nothing but [ValueError] and [struct.error]. *)
Lemma encrypt_loop_raises (string : str) :
  forall key result e,
    encrypt_loop key result string = Raise e -> e = ValueError.
Proof.
  induction string as [|i rest IH]; intros key result e H; simpl in H.
  - discriminate.
  - unfold bytes1 in H. destruct (is_byte (Z.lxor key i)); simpl in H.
    + eapply IH; eassumption.
    + congruence.
Qed.

Lemma pack_I_raises_only (n : Z) (e : exn) :
  pack_I n = Raise e -> e = StructError.
Proof.
  unfold pack_I. intros H.
  destruct ((0 <=? n) && (n <? 2 ^ 32)); [discriminate|congruence].
Qed.

Lemma encrypt_raises (x : str) (e : exn) :
  encrypt x = Raise e -> isinstance e ClsSocketError = false.
Proof.
  unfold encrypt. intros H.
  destruct (pack_I (len x)) as [hdr|e'] eqn:Hp; cbn [obind] in H.
  - apply encrypt_loop_raises in H. subst e. reflexivity.
  - apply pack_I_raises_only in Hp. inversion H. subst. reflexivity.
Qed.

(** [encrypt] on a byte string that fits the length field. *)
Lemma encrypt_eq (x : str) :
  is_bytes x = true -> len x < 2 ^ 32 ->
  exists hdr,
    pack_I (len x) = Return hdr /\ length hdr = 4%nat /\
    unpack_I hdr = len x /\
    encrypt x = Return (hdr ++ encrypt_stream 171 x).
Proof.
  intros Hx Hlen.
  destruct (pack_I_unpack (len x)) as (hdr & Hp & Hl & Hu).
  { unfold len in *. lia. }
  exists hdr. repeat split; try assumption.
  unfold encrypt. rewrite Hp. simpl.
  apply encrypt_loop_stream; [exact Hx|lia].
Qed.

(** The four bytes that [pack] returns, written with division and
    remainder. *)
Lemma pack_I_digits (n : Z) :
  0 <= n < 2 ^ 32 ->
  pack_I n
  = Return [(n / 2 ^ 24) mod 256; (n / 2 ^ 16) mod 256; (n / 2 ^ 8) mod 256;
            n mod 256] /\
  is_bytes [(n / 2 ^ 24) mod 256; (n / 2 ^ 16) mod 256; (n / 2 ^ 8) mod 256;
            n mod 256] = true.
Proof.
  intros Hn. split.
  - unfold pack_I.
    replace ((0 <=? n) && (n <? 2 ^ 32)) with true
      by (symmetry; apply andb_true_iff; rewrite Z.leb_le, Z.ltb_lt; exact Hn).
    change 255 with (Z.ones 8). rewrite !Z.land_ones by lia.
    rewrite !Z.shiftr_div_pow2 by lia. reflexivity.
  - repeat (apply is_bytes_cons; split; [apply Z.mod_pos_bound; lia|]).
    reflexivity.
Qed.

Lemma encrypt_stream_bytes (string : str) :
  forall key, 0 <= key < 256 -> is_bytes string = true ->
    is_bytes (encrypt_stream key string) = true.
Proof.
  induction string as [|i rest IH]; intros key Hk Hs; simpl; [reflexivity|].
  apply is_bytes_cons in Hs. destruct Hs as [Hi Hrest].
  pose proof (lxor_byte key i Hk Hi) as Ha.
  apply is_bytes_cons. split; [exact Ha|]. apply IH; assumption.
Qed.

Lemma skipn_header {A} (hdr body : list A) :
  length hdr = 4%nat -> skipn 4 (hdr ++ body) = body.
Proof.
  intros H. rewrite <- H. rewrite skipn_app, skipn_all, Nat.sub_diag.
  reflexivity.
Qed.

Lemma firstn_header {A} (hdr body : list A) :
  length hdr = 4%nat -> firstn 4 (hdr ++ body) = hdr.
Proof.
  intros H. rewrite <- H. rewrite firstn_app, firstn_all, Nat.sub_diag.
  simpl. apply app_nil_r.
Qed.

(** C1 (cipher round trip).  For every byte string [x] the bytes that
    the loop of [encrypt] appends decrypt back to [x], whatever the length
    and content of [x]; and when [x] fits the 32-bit length field,
    [decrypt(encrypt(x)[4:])] is [x]: framing and encrypting, then
    stripping the 4-byte prefix and decrypting, reproduces the payload. *)
Theorem decrypt_encrypt_roundtrip (x : str) :
  is_bytes x = true ->
  (forall result, exists c,
      encrypt_loop 171 result x = Return (result ++ c) /\ decrypt c = x) /\
  (len x < 2 ^ 32 ->
   exists framed,
     encrypt x = Return framed /\ decrypt (skipn 4 framed) = x).
Proof.
  intros Hx. split.
  - intros result. exists (encrypt_stream 171 x). split.
    + apply encrypt_loop_stream; [exact Hx|lia].
    + rewrite decrypt_stream_eq. apply stream_roundtrip.
  - intros Hlen. destruct (encrypt_eq x Hx Hlen) as (hdr & _ & Hl & _ & He).
    exists (hdr ++ encrypt_stream 171 x). split; [exact He|].
    rewrite skipn_header by exact Hl.
    rewrite decrypt_stream_eq. apply stream_roundtrip.
Qed.

(** The catalog entry ["on"], framed and encrypted, then unframed and
    decrypted, is the original JSON text. *)
Lemma decrypt_encrypt_roundtrip_witness :
  exists body framed,
    commands_get "on" = Return body /\
    is_bytes body = true /\ len body < 2 ^ 32 /\
    encrypt body = Return framed /\ decrypt (skipn 4 framed) = body.
Proof.
  pose (body := request "system" "set_relay_state" (member "state" "1")).
  assert (Hb : is_bytes body = true) by (vm_compute; reflexivity).
  assert (Hl : len body < 2 ^ 32) by (vm_compute; reflexivity).
  destruct (proj2 (decrypt_encrypt_roundtrip body Hb) Hl) as (framed & He & Hd).
  exists body, framed. repeat split; assumption.
Defined.

(** C5 (cipher algorithm).  With start key 171, the bytes [c] that
    [encrypt] produces for the plaintext bytes [p], the ones that follow
    its 4-byte prefix, satisfy [c_i = p_i XOR k_(i-1)] with [k_0 = 171]
    and [k_i = c_i]; so do the bytes its loop appends to any buffer when
    entered with that key; and the characters that [decrypt] produces for
    ciphertext bytes [c'] satisfy [p_i = c'_i XOR k_(i-1)] with the same
    start key and the same key update [k_i = c'_i]. *)
Theorem cipher_algorithm (p : str) (c' : bytes) :
  is_bytes p = true ->
  (len p < 2 ^ 32 ->
   exists framed,
     encrypt p = Return framed /\ autokey p (skipn 4 framed)) /\
  (forall result, exists c,
      encrypt_loop 171 result p = Return (result ++ c) /\ autokey p c) /\
  autokey_inv c' (decrypt c').
Proof.
  intros Hp. split; [|split].
  - intros Hlen.
    destruct (encrypt_eq p Hp Hlen) as (hdr & _ & Hl & _ & He).
    exists (hdr ++ encrypt_stream 171 p). split; [exact He|].
    rewrite skipn_header by exact Hl. apply encrypt_stream_autokey.
  - intros result. exists (encrypt_stream 171 p). split.
    + apply encrypt_loop_stream; [exact Hp|lia].
    + apply encrypt_stream_autokey.
  - rewrite decrypt_stream_eq. apply decrypt_stream_autokey.
Qed.

Lemma cipher_algorithm_witness :
  is_bytes [104; 105] = true /\
  len [104; 105] < 2 ^ 32 /\
  (exists framed,
      encrypt [104; 105] = Return framed /\
      autokey [104; 105] (skipn 4 framed) /\
      skipn 4 framed = [104 mod 256 + 91; 170]) /\
  autokey_inv [195; 170] (decrypt [195; 170]).
Proof.
  assert (Hl : len [104; 105] < 2 ^ 32) by (vm_compute; reflexivity).
  split; [reflexivity|]. split; [exact Hl|].
  destruct (cipher_algorithm [104; 105] [195; 170] eq_refl) as (He & _ & Hd).
  split; [|exact Hd].
  destruct (He Hl) as (framed & Hf & Ha).
  exists framed. split; [exact Hf|]. split; [exact Ha|].
  vm_compute in Hf. inversion Hf. reflexivity.
Defined.

(** C6, as stated, fails on [encrypt]: the value returned for the two
    characters [hi] has six bytes, the four of the length prefix and the
    two of the ciphertext. *)
Lemma encrypt_length_counterexample :
  exists framed,
    encrypt [104; 105] = Return framed /\
    length framed <> length [104; 105].
Proof.
  exists [0; 0; 0; 2; 195; 170]. split; [vm_compute; reflexivity|].
  simpl. discriminate.
Qed.

(** C6 (length preservation), amended.  For every byte string [x] the
    cipher produces exactly one byte per input byte: the loop of [encrypt]
    appends [len(x)] bytes to its buffer, so the ciphertext that follows
    the 4-byte prefix in [encrypt(x)] has the length of [x] and
    [encrypt(x)] itself is 4 bytes longer than [x]; [decrypt] returns one
    character per byte. *)
Theorem cipher_length_preserving (x : str) (c' : bytes) :
  is_bytes x = true ->
  (forall result, exists c,
      encrypt_loop 171 result x = Return (result ++ c) /\
      length c = length x) /\
  (len x < 2 ^ 32 ->
   exists framed,
     encrypt x = Return framed /\
     length (skipn 4 framed) = length x /\
     length framed = (4 + length x)%nat) /\
  length (decrypt c') = length c'.
Proof.
  intros Hx. split; [|split].
  - intros result. exists (encrypt_stream 171 x). split.
    + apply encrypt_loop_stream; [exact Hx|lia].
    + apply encrypt_stream_length.
  - intros Hlen. destruct (encrypt_eq x Hx Hlen) as (hdr & _ & Hl & _ & He).
    exists (hdr ++ encrypt_stream 171 x). split; [exact He|].
    rewrite skipn_header by exact Hl.
    rewrite length_app, Hl, encrypt_stream_length. split; reflexivity.
  - rewrite decrypt_stream_eq. apply decrypt_stream_length.
Qed.

Lemma cipher_length_preserving_witness :
  is_bytes commands_time = true /\
  len commands_time < 2 ^ 32 /\
  exists framed,
    encrypt commands_time = Return framed /\
    length (skipn 4 framed) = length commands_time /\
    length framed = (4 + length commands_time)%nat.
Proof.
  assert (Hl : len commands_time < 2 ^ 32) by (vm_compute; reflexivity).
  split; [reflexivity|]. split; [exact Hl|].
  exact (proj1 (proj2 (cipher_length_preserving commands_time [] eq_refl)) Hl).
Defined.

(** C7 (framing format).  For every byte string [x] that fits the length
    field, [encrypt(x)] is a bytes object of [4 + len(x)] bytes whose
    first 4 bytes are the big-endian digits of [len(x)] in base 256, so
    that they read as the unsigned number [len(x)], the count of plaintext
    bytes, and whose remainder is the ciphertext of [x]. *)
Theorem frame_format (x : str) :
  is_bytes x = true -> len x < 2 ^ 32 ->
  exists framed,
    encrypt x = Return framed /\
    is_bytes framed = true /\
    length framed = (4 + length x)%nat /\
    firstn 4 framed
    = [(len x / 2 ^ 24) mod 256; (len x / 2 ^ 16) mod 256;
       (len x / 2 ^ 8) mod 256; len x mod 256] /\
    unpack_I (firstn 4 framed) = len x /\
    autokey x (skipn 4 framed) /\
    forall result,
      encrypt_loop 171 result x = Return (result ++ skipn 4 framed).
Proof.
  intros Hx Hlen.
  destruct (encrypt_eq x Hx Hlen) as (hdr & Hp & Hl & Hu & He).
  destruct (pack_I_digits (len x)) as [Hd Hb].
  { unfold len in *. lia. }
  assert (Hh : hdr = [(len x / 2 ^ 24) mod 256; (len x / 2 ^ 16) mod 256;
                      (len x / 2 ^ 8) mod 256; len x mod 256])
    by congruence.
  clear Hd. rename Hh into Hd. rewrite <- Hd in Hb.
  exists (hdr ++ encrypt_stream 171 x). split; [exact He|].
  rewrite firstn_header, skipn_header by exact Hl.
  split.
  { unfold is_bytes in *. rewrite forallb_app, Hb. simpl.
    apply encrypt_stream_bytes; [lia|exact Hx]. }
  split; [rewrite length_app, Hl, encrypt_stream_length; reflexivity|].
  split; [exact Hd|].
  split; [exact Hu|]. split; [apply encrypt_stream_autokey|].
  intros result. apply encrypt_loop_stream; [exact Hx|lia].
Qed.

(** A payload of 300 characters: the prefix is [00 00 01 2c]. *)
Lemma frame_format_witness :
  is_bytes (repeat 65 300) = true /\
  len (repeat 65 300) < 2 ^ 32 /\
  exists framed,
    encrypt (repeat 65 300) = Return framed /\
    is_bytes framed = true /\
    length framed = 304%nat /\
    firstn 4 framed = [0; 0; 1; 44] /\
    unpack_I (firstn 4 framed) = 300 /\
    autokey (repeat 65 300) (skipn 4 framed).
Proof.
  assert (Hb : is_bytes (repeat 65 300) = true) by (vm_compute; reflexivity).
  assert (Hl : len (repeat 65 300) < 2 ^ 32) by (vm_compute; reflexivity).
  split; [exact Hb|]. split; [exact Hl|].
  destruct (frame_format (repeat 65 300) Hb Hl)
    as (framed & He & Hf & Hn & Hd & Hu & Ha & _).
  exists framed. split; [exact He|]. split; [exact Hf|].
  split; [rewrite Hn, repeat_length; reflexivity|].
  split; [rewrite Hd; vm_compute; reflexivity|].
  split; [rewrite Hu; vm_compute; reflexivity|exact Ha].
Defined.

(** Outside of the byte strings that fit the length field [encrypt]
    raises: [ValueError] at the first character above U+00FF (here the
    euro sign), [struct.error] from 2**32 characters on. *)
Example encrypt_rejects_wide_char :
  encrypt [123; 8364; 125] = Raise ValueError.
Proof. vm_compute. reflexivity. Qed.

Lemma encrypt_rejects_long (x : str) :
  2 ^ 32 <= len x -> encrypt x = Raise StructError.
Proof.
  intros H. unfold encrypt. rewrite pack_I_raises by exact H. reflexivity.
Qed.

End CodecFacts.

(** * Properties of the transport *)

Module TransportFacts.
Import Codec.

#[local] Arguments Z.to_nat : simpl never.
#[local] Arguments firstn : simpl never.
#[local] Arguments skipn : simpl never.

Ltac run_io :=
  cbv beta iota zeta delta
    [send_command try_except bind socket_socket sockcall sock_recv
     logging emit lift ret raise];
  simpl.

Lemma logs_app (t u : list event) : logs (t ++ u) = logs t ++ logs u.
Proof.
  induction t as [|e t IH]; simpl; [reflexivity|].
  destruct e; simpl; rewrite IH; reflexivity.
Qed.

Lemma frames_app (t u : list event) : frames (t ++ u) = frames t ++ frames u.
Proof.
  induction t as [|e t IH]; simpl; [reflexivity|].
  destruct e; simpl; rewrite IH; reflexivity.
Qed.

(** Whatever happens, a call opens exactly one socket and reads no
    clock. *)
Lemma send_command_sockets (E : env) (cmd : str) (w : world) :
  sockets (snd (send_command E cmd w)) = S (sockets w) /\
  clock (snd (send_command E cmd w)) = clock w.
Proof.
  run_io.
  destruct (x_socket (net E (sockets w))); simpl; [auto|].
  destruct (settimeout_arg E) as [[]|]; simpl; [auto|auto|].
  destruct (x_connect (net E (sockets w))); simpl; [auto|].
  destruct (encrypt cmd) as [frame|[]]; simpl; [|auto..].
  destruct (x_send (net E (sockets w))); simpl; [auto|].
  destruct (x_recv (net E (sockets w))); simpl; [auto|].
  destruct (x_close (net E (sockets w))); simpl; auto.
Qed.

(** C4, as stated, fails on [send_command]: what it returns after a
    socket failure is the bare [None], the same for two different hosts
    and ports, so the returned result carries no host or port. *)
Lemma send_command_result_without_context :
  let E1 := sample_env (fun _ => refusing) (fun _ => Raise JSONDecodeError) in
  let E2 := {| ip := "10.0.0.7"; port := 1234; quiet := false;
               settimeout_arg := None; net := fun _ => refusing;
               now := fun _ => noon;
               json_loads := fun _ => Raise JSONDecodeError |} in
  (ip E1 <> ip E2 /\ port E1 <> port E2) /\
  fst (send_command E1 commands_time world0) = Return None /\
  fst (send_command E2 commands_time world0) = Return None /\
  fst (send_command E1 commands_time world0)
  = fst (send_command E2 commands_time world0).
Proof.
  cbv zeta. split; [split; discriminate|].
  repeat split; vm_compute; reflexivity.
Qed.

(** C4 (transport errors), amended.  When a socket call of
    [send_command] raises [socket.error], at any stage and with any error
    number, the function does not raise: it returns [None], a result that
    carries no context; the attempted host and port are named by the one
    ERROR record it logs; it has opened one socket and tried at most one
    connection (no retry). *)
Theorem send_command_socket_failure
    (E : env) (cmd : str) (w : world) (s : stage) (err : oserror) :
  fails_at E cmd (net E (sockets w)) s err ->
  exists calls,
    send_command E cmd w
    = (Return None,
       {| sockets := S (sockets w); clock := clock w;
          trace := trace w ++ calls
                   ++ [EvLog ERROR (CouldNotConnect (ip E) (port E))] |}) /\
    logs calls = [] /\
    length (filter is_socket calls) = 1%nat /\
    (length (filter is_connect calls) <= 1)%nat.
Proof.
  intros H. destruct s; simpl in H.
  - exists [EvSocket]. run_io. rewrite H. simpl.
    rewrite <- app_assoc. auto.
  - destruct H as (H1 & H2 & H3).
    exists [EvSocket; EvSetTimeoutArg; EvConnect (ip E) (port E)].
    run_io. rewrite H1, H2, H3. simpl.
    rewrite <- !app_assoc. simpl. auto.
  - destruct H as (H1 & H2 & H3 & (frame & H4) & H5).
    exists [EvSocket; EvSetTimeoutArg; EvConnect (ip E) (port E);
            EvSetTimeoutNone; EvSend frame].
    run_io. rewrite H1, H2, H3, H4, H5. simpl.
    rewrite <- !app_assoc. simpl. auto.
  - destruct H as (H1 & H2 & H3 & (frame & H4) & H5 & H6).
    exists [EvSocket; EvSetTimeoutArg; EvConnect (ip E) (port E);
            EvSetTimeoutNone; EvSend frame; EvRecv 2048].
    run_io. rewrite H1, H2, H3, H4, H5, H6. simpl.
    rewrite <- !app_assoc. simpl. auto.
  - destruct H as (H1 & H2 & H3 & (frame & H4) & H5 & (data & H6) & H7).
    exists [EvSocket; EvSetTimeoutArg; EvConnect (ip E) (port E);
            EvSetTimeoutNone; EvSend frame; EvRecv 2048; EvClose].
    run_io. rewrite H1, H2, H3, H4, H5, H6, H7. simpl.
    rewrite <- !app_assoc. simpl. auto.
Qed.

Lemma send_command_socket_failure_witness :
  fails_at (sample_env (fun _ => refusing) (fun _ => Raise JSONDecodeError))
    commands_time refusing AtConnect ECONNREFUSED /\
  exists calls,
    send_command (sample_env (fun _ => refusing) (fun _ => Raise JSONDecodeError))
      commands_time world0
    = (Return None,
       {| sockets := 1; clock := 0;
          trace := calls ++ [EvLog ERROR (CouldNotConnect "192.168.0.1" 9999)] |})
    /\ logs calls = [] /\
    length (filter is_socket calls) = 1%nat /\
    (length (filter is_connect calls) <= 1)%nat.
Proof.
  assert (H : fails_at
                (sample_env (fun _ => refusing) (fun _ => Raise JSONDecodeError))
                commands_time refusing AtConnect ECONNREFUSED)
    by (simpl; auto).
  split; [exact H|].
  exact (send_command_socket_failure
           (sample_env (fun _ => refusing) (fun _ => Raise JSONDecodeError))
           commands_time world0 AtConnect ECONNREFUSED H).
Defined.

(** A completed exchange returns the decryption of what follows the
    first four bytes received, and the frame it sent is [encrypt(cmd)]. *)
Lemma send_command_completes
    (E : env) (cmd : str) (w : world) (data frame : bytes) :
  completes E cmd (net E (sockets w)) data ->
  encrypt cmd = Return frame ->
  send_command E cmd w
  = (Return (Some (decrypt (skipn 4 (firstn (Z.to_nat 2048) data)))),
     {| sockets := S (sockets w); clock := clock w;
        trace := trace w
                 ++ [EvSocket; EvSetTimeoutArg; EvConnect (ip E) (port E);
                     EvSetTimeoutNone; EvSend frame; EvRecv 2048; EvClose] |}).
Proof.
  intros (H1 & H2 & H3 & _ & H5 & H6 & H7) H4.
  run_io. rewrite H1, H2, H3, H4, H5, H6, H7. simpl.
  rewrite <- !app_assoc. reflexivity.
Qed.

(** The frames handed to [send] by one call: none, or [encrypt(cmd)]. *)
Lemma send_command_frames (E : env) (cmd : str) (w : world) :
  frames (trace (snd (send_command E cmd w))) = frames (trace w) \/
  exists f,
    encrypt cmd = Return f /\
    frames (trace (snd (send_command E cmd w))) = frames (trace w) ++ [f].
Proof.
  run_io.
  destruct (x_socket (net E (sockets w))); simpl.
  { left. rewrite !frames_app. simpl. rewrite !app_nil_r. reflexivity. }
  destruct (settimeout_arg E) as [[]|]; simpl;
    try (left; rewrite !frames_app; simpl; rewrite !app_nil_r; reflexivity).
  destruct (x_connect (net E (sockets w))); simpl.
  { left. rewrite !frames_app. simpl. rewrite !app_nil_r. reflexivity. }
  destruct (encrypt cmd) as [frame|[]]; simpl;
    try (left; rewrite !frames_app; simpl; rewrite !app_nil_r; reflexivity).
  right. exists frame. split; [reflexivity|].
  destruct (x_send (net E (sockets w))); simpl;
    [|destruct (x_recv (net E (sockets w))); simpl;
      [|destruct (x_close (net E (sockets w))); simpl]];
    rewrite !frames_app; simpl; rewrite !app_nil_r; reflexivity.
Qed.

(** C8 (unframing).  Whatever a completed exchange receives, the reply is
    the decryption of everything after the first four bytes: the prefix is
    dropped without being compared with the number of bytes received, and
    two replies that agree after their first four bytes give the same
    plaintext. *)
Theorem unframe_ignores_prefix
    (E1 E2 : env) (cmd1 cmd2 : str) (w1 w2 : world) (data1 data2 : bytes) :
  completes E1 cmd1 (net E1 (sockets w1)) data1 ->
  completes E2 cmd2 (net E2 (sockets w2)) data2 ->
  skipn 4 (firstn (Z.to_nat 2048) data1)
  = skipn 4 (firstn (Z.to_nat 2048) data2) ->
  fst (send_command E1 cmd1 w1)
  = Return (Some (decrypt (skipn 4 (firstn (Z.to_nat 2048) data1)))) /\
  fst (send_command E1 cmd1 w1) = fst (send_command E2 cmd2 w2).
Proof.
  intros H1 H2 Heq.
  pose proof H1 as (_ & _ & _ & (f1 & Hf1) & _).
  pose proof H2 as (_ & _ & _ & (f2 & Hf2) & _).
  rewrite (send_command_completes E1 cmd1 w1 data1 f1 H1 Hf1).
  rewrite (send_command_completes E2 cmd2 w2 data2 f2 H2 Hf2).
  simpl. rewrite Heq. split; reflexivity.
Qed.

(** Two replies carrying the same two ciphertext bytes, one behind an
    honest prefix and one behind a prefix that advertises 4294967295
    bytes, both yield the text [{}]. *)
Lemma unframe_ignores_prefix_witness :
  let E1 := sample_env (fun _ => answering [0; 0; 0; 2; 208; 173])
              (fun _ => Raise JSONDecodeError) in
  let E2 := sample_env (fun _ => answering [255; 255; 255; 255; 208; 173])
              (fun _ => Raise JSONDecodeError) in
  completes E1 commands_time (net E1 0) [0; 0; 0; 2; 208; 173] /\
  completes E2 commands_time (net E2 0) [255; 255; 255; 255; 208; 173] /\
  fst (send_command E1 commands_time world0) = Return (Some [123; 125]) /\
  fst (send_command E1 commands_time world0)
  = fst (send_command E2 commands_time world0).
Proof.
  intros E1 E2.
  assert (H1 : completes E1 commands_time (net E1 (sockets world0))
                 [0; 0; 0; 2; 208; 173]).
  { repeat split; try reflexivity. eexists. vm_compute. reflexivity. }
  assert (H2 : completes E2 commands_time (net E2 (sockets world0))
                 [255; 255; 255; 255; 208; 173]).
  { repeat split; try reflexivity. eexists. vm_compute. reflexivity. }
  split; [exact H1|]. split; [exact H2|].
  exact (unframe_ignores_prefix E1 E2 commands_time commands_time
           world0 world0 _ _ H1 H2 eq_refl).
Defined.

(** C9 (determinism).  [encrypt] is a function of the message alone: its
    key starts from 171 at every call and nothing is carried over from
    earlier messages.  Two runs on equal inputs return the same result,
    and whatever has been sent before in either world, whenever two calls
    of [send_command] hand a frame for the same message to their sockets,
    the two frames are equal and are [encrypt] of that message. *)
Theorem encrypt_deterministic
    (x1 x2 : str) (E1 E2 : env) (w1 w2 : world) (f1 f2 : bytes) :
  x1 = x2 ->
  encrypt x1 = encrypt x2 /\
  (frames (trace (snd (send_command E1 x1 w1))) = frames (trace w1) ++ [f1] ->
   frames (trace (snd (send_command E2 x2 w2))) = frames (trace w2) ++ [f2] ->
   f1 = f2 /\ encrypt x1 = Return f1).
Proof.
  intros Hx. subst x2. split; [reflexivity|]. intros Hs1 Hs2.
  assert (Hsent : forall E w f,
             frames (trace (snd (send_command E x1 w))) = frames (trace w) ++ [f] ->
             encrypt x1 = Return f).
  { intros E w f Hs.
    destruct (send_command_frames E x1 w) as [Hnone|(f' & He & Hone)].
    - rewrite Hnone in Hs. apply (f_equal (@length _)) in Hs.
      rewrite length_app in Hs. simpl in Hs. lia.
    - rewrite Hone in Hs. apply app_inv_head in Hs. congruence. }
  pose proof (Hsent E1 w1 f1 Hs1) as He1.
  pose proof (Hsent E2 w2 f2 Hs2) as He2.
  split; [congruence|exact He1].
Qed.

(** The time query sent from a fresh world and sent again after a first
    exchange puts the same 28 bytes on the wire. *)
Lemma encrypt_deterministic_witness :
  let E := sample_env (fun _ => answering [0; 0; 0; 2; 208; 173])
             (fun _ => Raise JSONDecodeError) in
  let w1 := snd (send_command E commands_time world0) in
  exists f,
    encrypt commands_time = Return f /\ length f = 28%nat /\
    frames (trace (snd (send_command E commands_time world0))) = [f] /\
    frames (trace (snd (send_command E commands_time w1))) = [f; f].
Proof.
  intros E w1.
  assert (H1 : exists f1,
             frames (trace (snd (send_command E commands_time world0)))
             = frames (trace world0) ++ [f1])
    by (eexists; vm_compute; reflexivity).
  assert (H2 : exists f2,
             frames (trace (snd (send_command E commands_time w1)))
             = frames (trace w1) ++ [f2])
    by (eexists; vm_compute; reflexivity).
  destruct H1 as (f1 & H1). destruct H2 as (f2 & H2).
  destruct (encrypt_deterministic commands_time commands_time E E
              world0 w1 f1 f2 eq_refl) as (_ & Hsame).
  destruct (Hsame H1 H2) as (Hf & He).
  exists f1. split; [exact He|].
  assert (Hlen : length f1 = 28%nat).
  { assert (Hc : exists f, encrypt commands_time = Return f /\ length f = 28%nat)
      by (eexists; split; vm_compute; reflexivity).
    destruct Hc as (f & Hf' & Hl). congruence. }
  split; [exact Hlen|]. split.
  - exact H1.
  - rewrite H2. unfold w1. rewrite H1. subst f2. reflexivity.
Defined.

End TransportFacts.

(** * Properties of the time-sync cycle *)

Module TimeSyncFacts.
Import Codec TransportFacts.

#[local] Arguments Z.to_nat : simpl never.
#[local] Arguments firstn : simpl never.
#[local] Arguments skipn : simpl never.

Section Awake.

Context {A B : Type}.

Lemma awake_ret (a : A) : awake (ret a).
Proof. intros w. reflexivity. Qed.

Lemma awake_raise (e : exn) : awake (@raise A e).
Proof. intros w. reflexivity. Qed.

Lemma awake_lift (o : outcome A) : awake (lift o).
Proof. intros w. reflexivity. Qed.

Lemma awake_bind (c : M A) (k : A -> M B) :
  awake c -> (forall a, awake (k a)) -> awake (bind c k).
Proof.
  intros Hc Hk w. unfold bind. specialize (Hc w).
  destruct (c w) as [[a|e] w1]; simpl in *.
  - rewrite Hk. exact Hc.
  - exact Hc.
Qed.

Lemma awake_try (body : M A) (cls : exc_class) (handler : exn -> M A) :
  awake body -> (forall e, awake (handler e)) ->
  awake (try_except body cls handler).
Proof.
  intros Hb Hh w. unfold try_except. specialize (Hb w).
  destruct (body w) as [[a|e] w1]; simpl in *.
  - exact Hb.
  - destruct (isinstance e cls); simpl; [rewrite Hh|]; exact Hb.
Qed.

End Awake.

Lemma sleeps_snoc (t : list event) (e : event) :
  sleeps (t ++ [e]) = (sleeps t + if is_sleep e then 1 else 0)%nat.
Proof.
  unfold sleeps. rewrite filter_app, length_app. simpl.
  destruct (is_sleep e); reflexivity.
Qed.

Lemma awake_emit (e : event) : is_sleep e = false -> awake (emit e).
Proof.
  intros He w. unfold emit. simpl. rewrite sleeps_snoc, He. lia.
Qed.

Lemma awake_socket_socket (E : env) : awake (socket_socket E).
Proof.
  intros w. unfold socket_socket.
  destruct (x_socket (net E (sockets w))); simpl;
    rewrite sleeps_snoc; simpl; lia.
Qed.

Lemma awake_datetime_now (E : env) : awake (datetime_now E).
Proof.
  intros w. unfold datetime_now. simpl. rewrite sleeps_snoc. simpl. lia.
Qed.

Ltac awake_step :=
  match goal with
  | |- forall _, _ => intro
  | |- awake (try_except _ _ _) => apply awake_try
  | |- awake (bind _ _) => apply awake_bind
  | |- awake (ret _) => apply awake_ret
  | |- awake (raise _) => apply awake_raise
  | |- awake (lift _) => apply awake_lift
  | |- awake (emit _) => apply awake_emit; reflexivity
  | |- awake (logging _ _) => apply awake_emit; reflexivity
  | |- awake (socket_socket _) => apply awake_socket_socket
  | |- awake (datetime_now _) => apply awake_datetime_now
  | |- awake (match ?x with _ => _ end) => destruct x
  end.

Lemma awake_send_command (E : env) (cmd : str) : awake (send_command E cmd).
Proof.
  unfold send_command, sockcall, sock_recv. repeat awake_step.
Qed.

Lemma awake_update_time (E : env) : awake (update_time E).
Proof.
  unfold update_time, reconcile.
  repeat first [apply awake_send_command | awake_step].
Qed.

(** The cycle returns normally from every world. *)
Lemma update_time_returns (E : env) (w : world) :
  fst (update_time E w) = Return tt.
Proof.
  unfold update_time, try_except.
  match goal with
  | |- fst (match ?c with _ => _ end) = _ => destruct c as [[[]|e] w1]
  end; reflexivity.
Qed.

(** A falsy poll result ends the cycle on the spot. *)
Lemma update_time_falsy (E : env) (w : world) (rsp : option str) :
  fst (send_command E commands_time w) = Return rsp ->
  truthy rsp = false ->
  update_time E w = (Return tt, snd (send_command E commands_time w)).
Proof.
  intros Hs Hf. unfold update_time, try_except, bind.
  destruct (send_command E commands_time w) as [r w1]. simpl in *. subst r.
  rewrite Hf. reflexivity.
Qed.

Lemma time_updater_runs (E : env) (n : nat) :
  forall w,
    fst (time_updater E n w) = Return tt /\
    sleeps (trace (snd (time_updater E n w))) = (sleeps (trace w) + n)%nat.
Proof.
  induction n as [|k IH]; intros w; simpl.
  - split; [reflexivity|lia].
  - cbv beta delta [bind sleep emit].
    pose proof (update_time_returns E w) as Hr.
    pose proof (awake_update_time E w) as Hq.
    destruct (update_time E w) as [[[]|e] w1]; simpl in Hr, Hq; [|discriminate].
    simpl.
    match goal with
    | |- context [time_updater E k ?w2] => destruct (IH w2) as [H1 H2]
    end.
    simpl in H2. rewrite sleeps_snoc in H2. simpl in H2.
    split; [exact H1|]. rewrite H2. lia.
Qed.

Lemma drift_exceeds_iff (delta : Z) :
  drift_exceeds_60s delta = true <-> 60 * 1000000 < Z.abs delta.
Proof.
  unfold drift_exceeds_60s. rewrite Z.gtb_ltb, Z.ltb_lt. reflexivity.
Qed.

(** Once the poll has returned a non-empty text that parses into
    [time_remote], the rest of the cycle is lines 139-148 run from the
    world the poll left. *)
Lemma update_time_parsed
    (E : env) (w w1 : world) (text : str) (g : json) (time_remote : datetime) :
  send_command E commands_time w = (Return (Some text), w1) ->
  text <> [] ->
  reply_get_time E text = Return g ->
  reply_datetime g = Return time_remote ->
  update_time E w
  = try_except (reconcile E (now E (clock w1)) time_remote) ClsException
      (fun e => logging ERROR (Traceback e))
      {| sockets := sockets w1; clock := S (clock w1);
         trace := trace w1 ++ [EvNow] |}.
Proof.
  intros Hs Ht Hg Hd.
  unfold update_time, try_except, bind. rewrite Hs.
  destruct text as [|c text']; [congruence|]. simpl.
  unfold lift, datetime_now. rewrite Hg, Hd. reflexivity.
Qed.

(** C2 (drift decision).  In a cycle whose poll returned a reply that
    parses into the device time, one more request is made after the poll
    if and only if the two snapshots differ by strictly more than 60
    seconds; that request is the time-set command built from the local
    snapshot.  At 60 seconds or less no request is made and the cycle only
    logs that the time is acceptable. *)
Theorem drift_decision
    (E : env) (w w1 : world) (text : str) (g : json) (time_remote : datetime) :
  send_command E commands_time w = (Return (Some text), w1) ->
  text <> [] ->
  reply_get_time E text = Return g ->
  reply_datetime g = Return time_remote ->
  let time := now E (clock w1) in
  let w2 := {| sockets := sockets w1; clock := S (clock w1);
               trace := trace w1 ++ [EvNow] |} in
  let delta := Datetime.sub time_remote time in
  (60 * 1000000 < Z.abs delta <->
   requests_between w2 (snd (update_time E w)) = 1) /\
  (Z.abs delta <= 60 * 1000000 <->
   requests_between w2 (snd (update_time E w)) = 0) /\
  (60 * 1000000 < Z.abs delta ->
   exists tail,
     trace (snd (update_time E w))
     = trace (snd (send_command E (set_timezone_cmd time) w2)) ++ tail /\
     frames tail = [] /\ filter is_socket tail = []) /\
  (Z.abs delta <= 60 * 1000000 ->
   update_time E w
   = (Return tt,
      {| sockets := sockets w2; clock := clock w2;
         trace := trace w2 ++ [EvLog INFO TimeOk] |})).
Proof.
  intros Hs Ht Hg Hd time w2 delta.
  rewrite (update_time_parsed E w w1 text g time_remote Hs Ht Hg Hd).
  fold time. fold w2.
  unfold try_except, reconcile. fold delta.
  pose proof (drift_exceeds_iff delta) as Hiff.
  destruct (drift_exceeds_60s delta) eqn:Hdrift.
  - assert (Hgt : 60 * 1000000 < Z.abs delta) by (apply Hiff; reflexivity).
    unfold bind.
    pose proof (send_command_sockets E (set_timezone_cmd time) w2) as [Hsock _].
    destruct (send_command E (set_timezone_cmd time) w2) as [[decrypted|e] w3];
      unfold requests_between; simpl in *.
    + repeat split; try lia.
      * intros _. eexists. split; [rewrite <- !app_assoc; reflexivity|].
        split; reflexivity.
    + repeat split; try lia.
      * intros _. eexists. split; [reflexivity|]. split; reflexivity.
  - assert (Hle : Z.abs delta <= 60 * 1000000).
    { destruct (Z_lt_le_dec (60 * 1000000) (Z.abs delta)) as [Hlt|Hle];
        [apply Hiff in Hlt; discriminate|exact Hle]. }
    unfold requests_between. simpl.
    repeat split; try lia; try reflexivity.
Qed.

(** The device reports 12:01:01 while the local clock reads 12:00:00:
    61 seconds of drift, and one request follows the poll. *)
Lemma drift_decision_witness :
  let E := sample_env (fun _ => answering [0; 0; 0; 2; 208; 173])
             (device_reports 12 1 1) in
  let w1 := snd (send_command E commands_time world0) in
  let time_remote := Datetime.mk 2024 1 1 12 1 1 0 in
  send_command E commands_time world0 = (Return (Some [123; 125]), w1) /\
  [123; 125] <> @nil Z /\
  reply_get_time E [123; 125] = Return (get_time_reply 12 1 1) /\
  reply_datetime (get_time_reply 12 1 1) = Return time_remote /\
  Datetime.sub time_remote (now E (clock w1)) = 61 * 1000000 /\
  requests_between
    {| sockets := sockets w1; clock := S (clock w1);
       trace := trace w1 ++ [EvNow] |}
    (snd (update_time E world0)) = 1.
Proof.
  intros E w1 time_remote.
  assert (Hs : send_command E commands_time world0
               = (Return (Some [123; 125]), w1))
    by (vm_compute; reflexivity).
  assert (Ht : [123; 125] <> @nil Z) by discriminate.
  assert (Hg : reply_get_time E [123; 125] = Return (get_time_reply 12 1 1))
    by (vm_compute; reflexivity).
  assert (Hd : reply_datetime (get_time_reply 12 1 1) = Return time_remote)
    by (vm_compute; reflexivity).
  assert (H61 : Datetime.sub time_remote (now E (clock w1)) = 61 * 1000000)
    by (vm_compute; reflexivity).
  pose proof (drift_decision E world0 w1 [123; 125] (get_time_reply 12 1 1)
                time_remote Hs Ht Hg Hd) as (H1 & _).
  split; [exact Hs|]. split; [exact Ht|]. split; [exact Hg|].
  split; [exact Hd|]. split; [exact H61|].
  apply H1. cbv zeta. fold time_remote. rewrite H61. reflexivity.
Defined.

(** The three boundary cases, run: a device that reports 12:01:00,
    12:01:01 and 12:00:00 to a client whose clock reads 12:00:00. *)
Example drift_60s_no_correction :
  let E := sample_env (fun _ => answering [0; 0; 0; 2; 208; 173])
             (device_reports 12 1 0) in
  sockets (snd (update_time E world0)) = 1%nat /\
  logs (trace (snd (update_time E world0))) = [(INFO, TimeOk)].
Proof. vm_compute. split; reflexivity. Qed.

Example drift_61s_correction :
  let E := sample_env (fun _ => answering [0; 0; 0; 2; 208; 173])
             (device_reports 12 1 1) in
  sockets (snd (update_time E world0)) = 2%nat /\
  (exists f, Codec.encrypt (set_timezone_cmd noon) = Return f /\
             nth 1 (frames (trace (snd (update_time E world0)))) [] = f) /\
  logs (trace (snd (update_time E world0)))
  = [(INFO, OldTime (Datetime.mk 2024 1 1 12 1 1 0));
     (INFO, NewTime noon);
     (INFO, Text (Some (lit "{}")))].
Proof.
  vm_compute. split; [reflexivity|]. split; [|reflexivity].
  eexists. split; reflexivity.
Qed.

Example drift_0s_no_correction :
  let E := sample_env (fun _ => answering [0; 0; 0; 2; 208; 173])
             (device_reports 12 0 0) in
  sockets (snd (update_time E world0)) = 1%nat /\
  logs (trace (snd (update_time E world0))) = [(INFO, TimeOk)].
Proof. vm_compute. split; reflexivity. Qed.

(** C3 (fault tolerance).  From every world and in every environment a
    cycle returns normally; when the poll ends in the transport's error
    result, in an exception, or in a reply that cannot be parsed or lacks
    the time fields, the cycle makes no further request and sends nothing
    more; and the loop completes each of its first [n] cycles, for every
    [n], reaching all [n] sleeps. *)
Theorem time_sync_fault_tolerant (E : env) (n : nat) (w : world) :
  fst (update_time E w) = Return tt /\
  (forall r w1,
     send_command E commands_time w = (r, w1) ->
     cycle_failure E r ->
     sockets (snd (update_time E w)) = sockets w1 /\
     frames (trace (snd (update_time E w))) = frames (trace w1)) /\
  fst (time_updater E n w) = Return tt /\
  sleeps (trace (snd (time_updater E n w))) = (sleeps (trace w) + n)%nat.
Proof.
  split; [apply update_time_returns|].
  split; [|apply time_updater_runs].
  intros r w1 Hs Hf. unfold update_time, try_except, bind. rewrite Hs.
  destruct Hf as [|e|text e Hg|text g e Hg Hd]; simpl.
  - split; reflexivity.
  - rewrite frames_app. simpl. rewrite app_nil_r. split; reflexivity.
  - destruct text as [|c text']; simpl; [split; reflexivity|].
    unfold lift. rewrite Hg. simpl.
    rewrite frames_app. simpl. rewrite app_nil_r. split; reflexivity.
  - destruct text as [|c text']; simpl; [split; reflexivity|].
    unfold lift, datetime_now. rewrite Hg, Hd. simpl.
    rewrite !frames_app. simpl. rewrite !app_nil_r. split; reflexivity.
Qed.

(** Three cycles against an address where nothing listens: three error
    records, three sleeps, no exception. *)
Lemma time_sync_fault_tolerant_witness :
  let E := sample_env (fun _ => refusing) (fun _ => Raise JSONDecodeError) in
  fst (time_updater E 3 world0) = Return tt /\
  sleeps (trace (snd (time_updater E 3 world0))) = 3%nat /\
  logs (trace (snd (time_updater E 3 world0)))
  = [(ERROR, CouldNotConnect "192.168.0.1" 9999);
     (ERROR, CouldNotConnect "192.168.0.1" 9999);
     (ERROR, CouldNotConnect "192.168.0.1" 9999)].
Proof.
  intros E.
  destruct (time_sync_fault_tolerant E 3 world0) as (_ & _ & H1 & H2).
  split; [exact H1|]. split; [exact H2|].
  vm_compute. reflexivity.
Defined.

(** A reply that does not parse is logged and the cycle is over. *)
Example malformed_reply_skips_cycle :
  let E := sample_env (fun _ => answering [0; 0; 0; 2; 208; 173])
             (fun _ => Raise JSONDecodeError) in
  update_time E world0
  = (Return tt,
     {| sockets := 1; clock := 0;
        trace := trace (snd (send_command E commands_time world0))
                 ++ [EvLog ERROR (Traceback JSONDecodeError)] |}).
Proof. vm_compute. reflexivity. Qed.

(** C10 (short reply).  When a completed exchange receives 4 bytes or
    fewer, [send_command] returns the empty string, not [None], and logs
    no error.  In a cycle the empty string and [None] are both falsy:
    after either, [update_time] returns at once, in the world the poll
    left, so the only request of the cycle is the poll. *)
Theorem short_reply_skips_cycle
    (E : env) (cmd : str) (w : world) (data : bytes) :
  completes E cmd (net E (sockets w)) data ->
  (length (firstn (Z.to_nat 2048) data) <= 4)%nat ->
  (fst (send_command E cmd w) = Return (Some []) /\
   logs (trace (snd (send_command E cmd w))) = logs (trace w)) /\
  truthy (Some []) = truthy None /\
  (cmd = commands_time ->
   update_time E w = (Return tt, snd (send_command E cmd w)) /\
   requests_between w (snd (update_time E w)) = 1) /\
  (forall E' w',
     fst (send_command E' commands_time w') = Return None ->
     update_time E' w' = (Return tt, snd (send_command E' commands_time w')) /\
     requests_between w' (snd (update_time E' w')) = 1).
Proof.
  intros Hc Hlen.
  pose proof Hc as (_ & _ & _ & (frame & Hf) & _).
  assert (Hr : fst (send_command E cmd w) = Return (Some [])).
  { rewrite (send_command_completes E cmd w data frame Hc Hf). simpl.
    rewrite skipn_all2 by exact Hlen. reflexivity. }
  assert (Hskip : forall E' w' rsp,
             fst (send_command E' commands_time w') = Return rsp ->
             truthy rsp = false ->
             update_time E' w'
             = (Return tt, snd (send_command E' commands_time w')) /\
             requests_between w' (snd (update_time E' w')) = 1).
  { intros E' w' rsp Hs Hfalsy.
    pose proof (update_time_falsy E' w' rsp Hs Hfalsy) as Hu.
    split; [exact Hu|]. rewrite Hu. simpl. unfold requests_between.
    destruct (send_command_sockets E' commands_time w') as [Hsock _].
    rewrite Hsock. lia. }
  split; [split; [exact Hr|]|].
  - rewrite (send_command_completes E cmd w data frame Hc Hf). simpl.
    rewrite logs_app. simpl. apply app_nil_r.
  - split; [reflexivity|]. split.
    + intros ->. apply (Hskip E w (Some [])); [exact Hr|reflexivity].
    + intros E' w' Hs. apply (Hskip E' w' None); [exact Hs|reflexivity].
Qed.

(** A device that answers the time query with the four prefix bytes
    only. *)
Lemma short_reply_skips_cycle_witness :
  let E := sample_env (fun _ => answering [0; 0; 0; 0])
             (fun _ => Raise JSONDecodeError) in
  completes E commands_time (net E 0) [0; 0; 0; 0] /\
  (length (firstn (Z.to_nat 2048) [0; 0; 0; 0]) <= 4)%nat /\
  fst (send_command E commands_time world0) = Return (Some []) /\
  logs (trace (snd (send_command E commands_time world0))) = [] /\
  update_time E world0
  = (Return tt, snd (send_command E commands_time world0)).
Proof.
  intros E.
  assert (Hc : completes E commands_time (net E (sockets world0)) [0; 0; 0; 0]).
  { repeat split; try reflexivity. eexists. vm_compute. reflexivity. }
  assert (Hl : (length (firstn (Z.to_nat 2048) [0; 0; 0; 0]) <= 4)%nat)
    by (vm_compute; repeat constructor).
  destruct (short_reply_skips_cycle E commands_time world0 _ Hc Hl)
    as ((H1 & H2) & _ & H3 & _).
  split; [exact Hc|]. split; [exact Hl|]. split; [exact H1|].
  split; [exact H2|]. exact (proj1 (H3 eq_refl)).
Defined.

End TimeSyncFacts.

(** * Further properties of the codec *)

Module CodecMore.
Import Codec CodecFacts.

Lemma is_bytes_false_cons (a : Z) (s : list Z) :
  is_bytes (a :: s) = false <->
  is_byte a = false \/ (is_byte a = true /\ is_bytes s = false).
Proof.
  unfold is_bytes. simpl. destruct (is_byte a); simpl; split; intros H.
  - right. split; [reflexivity|exact H].
  - destruct H as [H|[_ H]]; [discriminate|exact H].
  - left. reflexivity.
  - reflexivity.
Qed.

(** On a string with a character above U+00FF the loop raises
    [ValueError], whatever it has appended so far. *)
Lemma encrypt_loop_wide (string : str) :
  forall key result,
    0 <= key < 256 -> is_bytes string = false ->
    encrypt_loop key result string = Raise ValueError.
Proof.
  induction string as [|i rest IH]; intros key result Hk Hs.
  - discriminate.
  - simpl. unfold bytes1. apply is_bytes_false_cons in Hs.
    destruct Hs as [Hi|[Hi Hrest]].
    + rewrite (lxor_not_byte key i Hk Hi). reflexivity.
    + apply is_byte_iff in Hi. pose proof (lxor_byte key i Hk Hi) as Ha.
      rewrite (proj2 (is_byte_iff _) Ha). simpl. apply IH; assumption.
Qed.

Lemma len_nonneg {A} (l : list A) : 0 <= len l.
Proof. unfold len. lia. Qed.

(** What [encrypt] does on every [str], by cases on its length and
    content.  The length is checked first: a string of [2**32] characters
    or more raises [struct.error] even when it also holds wide
    characters. *)
Lemma encrypt_cases (x : str) :
  (is_bytes x = true /\ len x < 2 ^ 32 /\
   exists framed, encrypt x = Return framed) \/
  (is_bytes x = false /\ len x < 2 ^ 32 /\ encrypt x = Raise ValueError) \/
  (2 ^ 32 <= len x /\ encrypt x = Raise StructError).
Proof.
  destruct (Z_lt_le_dec (len x) (2 ^ 32)) as [Hlt|Hge].
  - destruct (is_bytes x) eqn:Hx.
    + left. destruct (encrypt_eq x Hx Hlt) as (hdr & _ & _ & _ & He).
      split; [reflexivity|]. split; [exact Hlt|]. eexists. exact He.
    + right. left. split; [reflexivity|]. split; [exact Hlt|].
      destruct (pack_I_unpack (len x)) as (hdr & Hp & _).
      { split; [apply len_nonneg|exact Hlt]. }
      unfold encrypt. rewrite Hp. simpl.
      apply encrypt_loop_wide; [lia|exact Hx].
  - right. right. split; [exact Hge|]. apply encrypt_rejects_long. exact Hge.
Qed.

(** X1.  [encrypt] returns exactly on the strings whose characters are all
    below U+0100 and whose length is below [2**32]; it raises [ValueError]
    exactly on the shorter strings that hold a wider character, and
    [struct.error] exactly from [2**32] characters on. *)
Theorem encrypt_outcome (x : str) :
  ((exists framed, encrypt x = Return framed) <->
   is_bytes x = true /\ len x < 2 ^ 32) /\
  (encrypt x = Raise ValueError <-> is_bytes x = false /\ len x < 2 ^ 32) /\
  (encrypt x = Raise StructError <-> 2 ^ 32 <= len x).
Proof.
  destruct (encrypt_cases x)
    as [(Hb & Hl & framed & He)|[(Hb & Hl & He)|(Hl & He)]];
    rewrite He; (split; [|split]); split.
  - intros _. split; assumption.
  - intros _. exists framed. reflexivity.
  - discriminate.
  - intros (H & _). congruence.
  - discriminate.
  - lia.
  - intros (f & Hf). discriminate.
  - intros (H & _). congruence.
  - intros _. split; assumption.
  - reflexivity.
  - discriminate.
  - lia.
  - intros (f & Hf). discriminate.
  - intros (_ & H). lia.
  - discriminate.
  - intros (_ & H). lia.
  - intros _. exact Hl.
  - reflexivity.
Qed.

(** A frame determines its payload. *)
Lemma encrypt_payload (x : str) (framed : bytes) :
  encrypt x = Return framed -> decrypt (skipn 4 framed) = x.
Proof.
  intros He.
  destruct (encrypt_cases x)
    as [(Hb & Hl & _)|[(_ & _ & He')|(_ & He')]]; try congruence.
  destruct (encrypt_eq x Hb Hl) as (hdr & _ & Hh & _ & He').
  rewrite He' in He. inversion He. subst framed.
  rewrite skipn_header by exact Hh.
  rewrite decrypt_stream_eq. apply stream_roundtrip.
Qed.

(** X2.  [encrypt] is injective: two payloads that produce the same frame
    are the same payload. *)
Theorem encrypt_injective (x y : str) (framed : bytes) :
  encrypt x = Return framed -> encrypt y = Return framed -> x = y.
Proof.
  intros Hx Hy.
  rewrite <- (encrypt_payload x framed Hx). apply encrypt_payload. exact Hy.
Qed.

Lemma encrypt_injective_witness :
  exists on off f_on f_off,
    commands_get "on" = Return on /\ commands_get "off" = Return off /\
    encrypt on = Return f_on /\ encrypt off = Return f_off /\
    f_on <> f_off.
Proof.
  pose (on := request "system" "set_relay_state" (member "state" "1")).
  pose (off := request "system" "set_relay_state" (member "state" "0")).
  assert (H1 : exists f, encrypt on = Return f)
    by (eexists; vm_compute; reflexivity).
  assert (H2 : exists f, encrypt off = Return f)
    by (eexists; vm_compute; reflexivity).
  destruct H1 as (f_on & H1). destruct H2 as (f_off & H2).
  exists on, off, f_on, f_off.
  repeat split; try reflexivity; try assumption.
  intros Heq. rewrite <- Heq in H2.
  pose proof (encrypt_injective on off f_on H1 H2) as Hsame.
  vm_compute in Hsame. discriminate Hsame.
Defined.

Lemma stream_roundtrip_inv (string : bytes) :
  forall key, encrypt_stream key (decrypt_stream key string) = string.
Proof.
  induction string as [|i rest IH]; intros key; simpl.
  - reflexivity.
  - rewrite lxor_cancel, IH. reflexivity.
Qed.

(** X3.  The other round trip: for a [bytes] object [c] that fits the
    length field, [encrypt(decrypt(c))] is the 4-byte length of [c]
    followed by [c] itself, so [decrypt] has no two ciphertexts with the
    same plaintext. *)
Theorem encrypt_decrypt_roundtrip (c : bytes) :
  is_bytes c = true -> len c < 2 ^ 32 ->
  exists hdr,
    pack_I (len c) = Return hdr /\
    encrypt (decrypt c) = Return (hdr ++ c).
Proof.
  intros Hc Hl.
  assert (Hd : is_bytes (decrypt c) = true) by (apply decrypt_chr_defined; exact Hc).
  assert (Hlen : len (decrypt c) = len c).
  { unfold len. rewrite decrypt_stream_eq, decrypt_stream_length. reflexivity. }
  destruct (encrypt_eq (decrypt c) Hd) as (hdr & Hp & _ & _ & He).
  { rewrite Hlen. exact Hl. }
  exists hdr. rewrite Hlen in Hp. split; [exact Hp|].
  rewrite He, decrypt_stream_eq, stream_roundtrip_inv. reflexivity.
Qed.

Lemma encrypt_decrypt_roundtrip_witness :
  is_bytes [208; 173; 0; 255] = true /\ len [208; 173; 0; 255] < 2 ^ 32 /\
  encrypt (decrypt [208; 173; 0; 255]) = Return [0; 0; 0; 4; 208; 173; 0; 255].
Proof.
  assert (Hl : len [208; 173; 0; 255] < 2 ^ 32) by (vm_compute; reflexivity).
  split; [reflexivity|]. split; [exact Hl|].
  destruct (encrypt_decrypt_roundtrip [208; 173; 0; 255] eq_refl Hl)
    as (hdr & Hp & He).
  rewrite He. vm_compute in Hp. inversion Hp. reflexivity.
Defined.

Lemma decrypt_stream_firstn (c : bytes) :
  forall n key,
    decrypt_stream key (firstn n c) = firstn n (decrypt_stream key c).
Proof.
  induction c as [|i rest IH]; intros n key.
  - rewrite !firstn_nil. reflexivity.
  - destruct n as [|n]; simpl; [reflexivity|]. rewrite IH. reflexivity.
Qed.

Lemma last_push (l : list Z) (i d : Z) : last (i :: l) d = last l i.
Proof.
  revert i d. induction l as [|a l IH]; intros i d; [reflexivity|].
  change (last (i :: a :: l) d) with (last (a :: l) d).
  rewrite !IH. reflexivity.
Qed.

Lemma decrypt_stream_app (c1 c2 : bytes) :
  forall key,
    decrypt_stream key (c1 ++ c2)
    = decrypt_stream key c1 ++ decrypt_stream (last c1 key) c2.
Proof.
  induction c1 as [|i rest IH]; intros key.
  - reflexivity.
  - rewrite last_push. simpl. rewrite IH. reflexivity.
Qed.

(** X4.  Decryption works on prefixes: the plaintext of a truncated
    ciphertext is the truncated plaintext, and the plaintext of a
    concatenation continues with the last byte of the first part as
    key. *)
Theorem decrypt_prefix (c c2 : bytes) (n : nat) :
  decrypt (firstn n c) = firstn n (decrypt c) /\
  decrypt (c ++ c2) = decrypt c ++ decrypt_stream (last c 171) c2.
Proof.
  rewrite !decrypt_stream_eq. split.
  - apply decrypt_stream_firstn.
  - apply decrypt_stream_app.
Qed.

(** X5.  A plaintext character depends on two ciphertext bytes only, its
    own and the one before: ciphertexts that agree at positions [j - 1]
    and [j] decrypt to the same character at [j]. *)
Theorem decrypt_local (c c' : bytes) (j : nat) :
  (j < length c)%nat -> (j < length c')%nat ->
  nth j c 0 = nth j c' 0 ->
  (j = O \/ nth (j - 1) c 0 = nth (j - 1) c' 0) ->
  nth j (decrypt c) 0 = nth j (decrypt c') 0.
Proof.
  intros Hj Hj' Hsame Hprev.
  rewrite !decrypt_stream_eq, !decrypt_stream_nth by assumption.
  rewrite Hsame. destruct j as [|j]; [reflexivity|].
  destruct Hprev as [H|H]; [discriminate|].
  simpl in H. rewrite Nat.sub_0_r in H. rewrite H. reflexivity.
Qed.

(** One byte of the reply to the time query damaged in transit: two
    characters change, the rest of the text is intact. *)
Lemma decrypt_local_witness :
  let c := [208; 242; 134; 239; 130; 231] in
  let c' := [208; 242; 0; 239; 130; 231] in
  (4 < length c)%nat /\ (4 < length c')%nat /\
  nth 4 (decrypt c) 0 = nth 4 (decrypt c') 0 /\
  decrypt c = [123; 34; 116; 105; 109; 101] /\
  decrypt c' = [123; 34; 242; 239; 109; 101].
Proof.
  intros c c'.
  assert (H1 : (4 < length c)%nat) by (simpl; lia).
  assert (H2 : (4 < length c')%nat) by (simpl; lia).
  split; [exact H1|]. split; [exact H2|]. split.
  - apply (decrypt_local c c' 4 H1 H2); [reflexivity|right; reflexivity].
  - split; vm_compute; reflexivity.
Defined.

End CodecMore.

(** * Further properties of the transport *)

Module TransportMore.
Import Codec CodecFacts CodecMore TransportFacts.

#[local] Arguments Z.to_nat : simpl never.
#[local] Arguments firstn : simpl never.
#[local] Arguments skipn : simpl never.




(** X7.  A completed exchange returns as many characters as bytes were
    received beyond the first four, counting at most 2048 received bytes:
    never more than 2044 characters, and none for a reply of four bytes or
    fewer. *)
Theorem send_command_reply_length
    (E : env) (cmd : str) (w : world) (data : bytes) :
  completes E cmd (net E (sockets w)) data ->
  exists text,
    fst (send_command E cmd w) = Return (Some text) /\
    length text = (Nat.min 2048 (length data) - 4)%nat /\
    (length text <= 2044)%nat.
Proof.
  intros Hc.
  pose proof Hc as (_ & _ & _ & (frame & Hf) & _).
  rewrite (send_command_completes E cmd w data frame Hc Hf). cbn [fst].
  eexists. split; [reflexivity|].
  rewrite decrypt_stream_eq, decrypt_stream_length, length_skipn, length_firstn.
  change (Z.to_nat 2048) with 2048%nat. lia.
Qed.

Lemma send_command_reply_length_witness :
  let E := sample_env (fun _ => answering (repeat 0 3000))
             (fun _ => Raise JSONDecodeError) in
  completes E commands_time (net E 0) (repeat 0 3000) /\
  exists text,
    fst (send_command E commands_time world0) = Return (Some text) /\
    length text = 2044%nat.
Proof.
  intros E.
  assert (Hc : completes E commands_time (net E (sockets world0)) (repeat 0 3000)).
  { repeat split; try reflexivity. eexists. vm_compute. reflexivity. }
  split; [exact Hc|].
  destruct (send_command_reply_length E commands_time world0 _ Hc)
    as (text & Hr & Hl & _).
  exists text. split; [exact Hr|]. rewrite Hl, repeat_length. reflexivity.
Defined.

Lemma closes_app (t u : list event) : closes (t ++ u) = (closes t + closes u)%nat.
Proof. unfold closes. rewrite filter_app, length_app. reflexivity. Qed.

Ltac trace_facts :=
  rewrite <- ?app_assoc; rewrite ?logs_app, ?frames_app;
  unfold closes; rewrite ?filter_app, ?length_app;
  simpl; rewrite ?app_nil_r, ?Nat.add_0_r.

(** X8.  Every call ends in one of three ways.  It returns a text, and
    then it has logged nothing; or it returns [None], and then it has
    logged exactly one ERROR record naming the host and port; or it
    raises, never [socket.error], only what [settimeout] or [encrypt]
    raised, and then it has logged nothing. *)
Theorem send_command_outcomes (E : env) (cmd : str) (w : world) :
  match fst (send_command E cmd w) with
  | Return (Some text) =>
      logs (trace (snd (send_command E cmd w))) = logs (trace w)
  | Return None =>
      logs (trace (snd (send_command E cmd w)))
      = logs (trace w) ++ [(ERROR, CouldNotConnect (ip E) (port E))]
  | Raise e =>
      isinstance e ClsSocketError = false /\
      logs (trace (snd (send_command E cmd w))) = logs (trace w) /\
      ((exists f, settimeout_arg E = Some f /\ e = timeout_exn f) \/
       encrypt cmd = Raise e)
  end.
Proof.
  run_io.
  destruct (x_socket (net E (sockets w))); simpl; [trace_facts; reflexivity|].
  destruct (settimeout_arg E) as [f|] eqn:Ht; simpl.
  { destruct f; simpl; trace_facts;
      (split; [reflexivity|split; [reflexivity|left; eexists; split; reflexivity]]). }
  destruct (x_connect (net E (sockets w))); simpl; [trace_facts; reflexivity|].
  destruct (encrypt cmd) as [frame|e] eqn:He; simpl.
  - destruct (x_send (net E (sockets w))); simpl; [trace_facts; reflexivity|].
    destruct (x_recv (net E (sockets w))); simpl; [trace_facts; reflexivity|].
    destruct (x_close (net E (sockets w))); simpl; trace_facts; reflexivity.
  - pose proof (encrypt_raises cmd e He) as Hne.
    destruct e; try discriminate Hne; simpl; trace_facts;
      (split; [reflexivity|split; [reflexivity|right; reflexivity]]).
Qed.

(** An exception out of [send_command] comes from [settimeout] or from
    [encrypt]. *)
Lemma send_command_raise_cause (E : env) (cmd : str) (w : world) (e : exn) :
  fst (send_command E cmd w) = Raise e ->
  (exists f, settimeout_arg E = Some f /\ e = timeout_exn f) \/
  encrypt cmd = Raise e.
Proof.
  run_io.
  destruct (x_socket (net E (sockets w))); simpl; [discriminate|].
  destruct (settimeout_arg E) as [f|]; simpl.
  { destruct f; simpl; intros H; inversion H; left; eexists; split; reflexivity. }
  destruct (x_connect (net E (sockets w))); simpl; [discriminate|].
  destruct (encrypt cmd) as [frame|e'] eqn:He; simpl.
  - destruct (x_send (net E (sockets w))); simpl; [discriminate|].
    destruct (x_recv (net E (sockets w))); simpl; [discriminate|].
    destruct (x_close (net E (sockets w))); simpl; discriminate.
  - pose proof (encrypt_raises cmd e' He) as Hne.
    destruct e'; try discriminate Hne; simpl; intros H; inversion H;
      right; reflexivity.
Qed.

(** The log of one call: one ERROR record when it returns [None],
    nothing otherwise. *)
Lemma send_command_logs (E : env) (cmd : str) (w : world) :
  logs (trace (snd (send_command E cmd w)))
  = logs (trace w)
    ++ match fst (send_command E cmd w) with
       | Return None => [(ERROR, CouldNotConnect (ip E) (port E))]
       | _ => []
       end.
Proof.
  run_io.
  destruct (x_socket (net E (sockets w))); simpl; [trace_facts; reflexivity|].
  destruct (settimeout_arg E) as [f|]; simpl.
  { destruct f; simpl; trace_facts; reflexivity. }
  destruct (x_connect (net E (sockets w))); simpl; [trace_facts; reflexivity|].
  destruct (encrypt cmd) as [frame|e] eqn:He; simpl.
  - destruct (x_send (net E (sockets w))); simpl; [trace_facts; reflexivity|].
    destruct (x_recv (net E (sockets w))); simpl; [trace_facts; reflexivity|].
    destruct (x_close (net E (sockets w))); simpl; trace_facts; reflexivity.
  - pose proof (encrypt_raises cmd e He) as Hne.
    destruct e; try discriminate Hne; simpl; trace_facts; reflexivity.
Qed.

(** X9.  A payload with a character above U+00FF is found out only after
    the connection is made: [send_command] raises [ValueError] with the
    socket connected, nothing sent, nothing logged and the socket not
    closed. *)
Theorem send_command_wide_payload (E : env) (cmd : str) (w : world) :
  is_bytes cmd = false -> len cmd < 2 ^ 32 ->
  x_socket (net E (sockets w)) = None ->
  settimeout_arg E = None ->
  x_connect (net E (sockets w)) = None ->
  send_command E cmd w
  = (Raise ValueError,
     {| sockets := S (sockets w); clock := clock w;
        trace := trace w
                 ++ [EvSocket; EvSetTimeoutArg; EvConnect (ip E) (port E);
                     EvSetTimeoutNone] |}).
Proof.
  intros Hb Hl H1 H2 H3.
  assert (He : encrypt cmd = Raise ValueError).
  { destruct (encrypt_cases cmd)
      as [(Hb' & _)|[(_ & _ & Hr)|(Hl' & _)]]; [congruence|exact Hr|lia]. }
  run_io. rewrite H1, H2, H3, He. simpl.
  rewrite <- !app_assoc. reflexivity.
Qed.

(** A payload of three characters, a euro sign between two braces. *)
Lemma send_command_wide_payload_witness :
  let E := sample_env (fun _ => answering []) (fun _ => Raise JSONDecodeError) in
  is_bytes [123; 8364; 125] = false /\ len [123; 8364; 125] < 2 ^ 32 /\
  fst (send_command E [123; 8364; 125] world0) = Raise ValueError /\
  frames (trace (snd (send_command E [123; 8364; 125] world0))) = [] /\
  closes (trace (snd (send_command E [123; 8364; 125] world0))) = 0%nat.
Proof.
  intros E.
  assert (Hl : len [123; 8364; 125] < 2 ^ 32) by (vm_compute; reflexivity).
  split; [reflexivity|]. split; [exact Hl|].
  rewrite (send_command_wide_payload E [123; 8364; 125] world0
             eq_refl Hl eq_refl eq_refl eq_refl).
  repeat split.
Defined.

(** X10.  Every call opens a socket, but [close] is called only when all
    the calls before it succeeded: after a failure at any earlier step,
    and after an exception, the socket is left unclosed. *)
Theorem close_only_after_recv (E : env) (cmd : str) (w : world) :
  sockets (snd (send_command E cmd w)) = S (sockets w) /\
  (reaches_close E cmd (net E (sockets w)) ->
   closes (trace (snd (send_command E cmd w))) = S (closes (trace w))) /\
  (~ reaches_close E cmd (net E (sockets w)) ->
   closes (trace (snd (send_command E cmd w))) = closes (trace w)).
Proof.
  split; [apply send_command_sockets|].
  unfold reaches_close. run_io.
  destruct (x_socket (net E (sockets w))); simpl.
  { split; [intros (H & _); discriminate|intros _; trace_facts; reflexivity]. }
  destruct (settimeout_arg E) as [f|]; simpl.
  { split; [intros (_ & H & _); discriminate|].
    intros _. destruct f; simpl; trace_facts; reflexivity. }
  destruct (x_connect (net E (sockets w))); simpl.
  { split; [intros (_ & _ & H & _); discriminate|intros _; trace_facts; reflexivity]. }
  destruct (encrypt cmd) as [frame|e] eqn:He; simpl.
  - destruct (x_send (net E (sockets w))); simpl.
    { split; [intros (_ & _ & _ & _ & H & _); discriminate|].
      intros _. trace_facts. reflexivity. }
    destruct (x_recv (net E (sockets w))) as [err|data]; simpl.
    { split; [intros (_ & _ & _ & _ & _ & (d & H)); discriminate|].
      intros _. trace_facts. reflexivity. }
    split.
    + intros _. destruct (x_close (net E (sockets w))); simpl;
        trace_facts; lia.
    + intros Hn. exfalso. apply Hn. repeat split; eauto.
  - split; [intros (_ & _ & _ & (f & H) & _); discriminate|].
    intros _. pose proof (encrypt_raises cmd e He) as Hne.
    destruct e; try discriminate Hne; simpl; trace_facts; reflexivity.
Qed.

End TransportMore.

(** * Further properties of the time-sync cycle *)

Module TimeSyncMore.
Import Codec CodecFacts CodecMore TransportFacts TransportMore TimeSyncFacts.

#[local] Arguments send_command : simpl never.
#[local] Arguments set_timezone_cmd : simpl never.
#[local] Arguments Datetime.sub : simpl never.
#[local] Arguments drift_exceeds_60s : simpl never.
#[local] Arguments reply_get_time : simpl never.
#[local] Arguments reply_datetime : simpl never.
#[local] Arguments Z.to_nat : simpl never.
#[local] Arguments firstn : simpl never.
#[local] Arguments skipn : simpl never.

Section Emits.

Context {A B : Type} (P : event -> Prop).

Lemma emits_ret (a : A) : emits P (ret a).
Proof. intros w. exists []. rewrite app_nil_r. split; [reflexivity|constructor]. Qed.

Lemma emits_raise (e : exn) : emits P (@raise A e).
Proof. intros w. exists []. rewrite app_nil_r. split; [reflexivity|constructor]. Qed.

Lemma emits_lift (o : outcome A) : emits P (lift o).
Proof. intros w. exists []. rewrite app_nil_r. split; [reflexivity|constructor]. Qed.

Lemma emits_bind (c : M A) (k : A -> M B) :
  emits P c -> (forall a, emits P (k a)) -> emits P (bind c k).
Proof.
  intros Hc Hk w. unfold bind. destruct (Hc w) as (evs & Ht & Hp).
  destruct (c w) as [[a|e] w1]; simpl in *.
  - destruct (Hk a w1) as (evs' & Ht' & Hp').
    exists (evs ++ evs'). rewrite Ht', Ht, app_assoc.
    split; [reflexivity|apply Forall_app; split; assumption].
  - exists evs. split; assumption.
Qed.

Lemma emits_try (body : M A) (cls : exc_class) (handler : exn -> M A) :
  emits P body -> (forall e, emits P (handler e)) ->
  emits P (try_except body cls handler).
Proof.
  intros Hb Hh w. unfold try_except. destruct (Hb w) as (evs & Ht & Hp).
  destruct (body w) as [[a|e] w1]; simpl in *.
  - exists evs. split; assumption.
  - destruct (isinstance e cls); simpl.
    + destruct (Hh e w1) as (evs' & Ht' & Hp').
      exists (evs ++ evs'). rewrite Ht', Ht, app_assoc.
      split; [reflexivity|apply Forall_app; split; assumption].
    + exists evs. split; assumption.
Qed.

End Emits.

Lemma emits_emit (P : event -> Prop) (e : event) : P e -> emits P (emit e).
Proof.
  intros He w. exists [e]. split; [reflexivity|].
  constructor; [exact He|constructor].
Qed.

Lemma emits_socket_socket (P : event -> Prop) (E : env) :
  P EvSocket -> emits P (socket_socket E).
Proof.
  intros He w. exists [EvSocket]. unfold socket_socket.
  destruct (x_socket (net E (sockets w))); simpl;
    (split; [reflexivity|constructor; [exact He|constructor]]).
Qed.

Lemma emits_datetime_now (P : event -> Prop) (E : env) :
  P EvNow -> emits P (datetime_now E).
Proof.
  intros He w. exists [EvNow]. split; [reflexivity|].
  constructor; [exact He|constructor].
Qed.

Ltac emits_step E :=
  match goal with
  | |- forall _, _ => intro
  | |- emits _ (try_except _ _ _) => apply emits_try
  | |- emits _ (bind _ _) => apply emits_bind
  | |- emits _ (ret _) => apply emits_ret
  | |- emits _ (raise _) => apply emits_raise
  | |- emits _ (lift _) => apply emits_lift
  | |- emits _ (emit _) => apply emits_emit; simpl; auto
  | |- emits _ (logging _ _) => apply emits_emit; exact I
  | |- emits _ (socket_socket _) => apply emits_socket_socket; exact I
  | |- emits _ (datetime_now _) => apply emits_datetime_now; exact I
  | |- emits _ (match ?x with _ => _ end) => destruct x
  end.

Lemma emits_send_command (E : env) (cmd : str) :
  emits (expected_call E) (send_command E cmd).
Proof.
  unfold send_command, sockcall, sock_recv. repeat emits_step E.
Qed.

Lemma emits_update_time (E : env) : emits (expected_call E) (update_time E).
Proof.
  unfold update_time, reconcile.
  repeat first [apply emits_send_command | emits_step E].
Qed.

Lemma emits_time_updater (E : env) (n : nat) :
  emits (expected_call E) (time_updater E n).
Proof.
  induction n as [|k IH]; simpl.
  - apply emits_ret.
  - apply emits_bind; [apply emits_update_time|intros _].
    apply emits_bind; [apply emits_emit; reflexivity|intros _; exact IH].
Qed.

Lemma emits_normal_command (E : env) (cmd : str) :
  emits (expected_call E) (normal_command E cmd).
Proof.
  unfold normal_command.
  repeat first [apply emits_send_command | emits_step E].
Qed.

(** X11.  Whatever the network does and however long the program runs,
    every connection it attempts goes to the configured host and port,
    every [recv] asks for 2048 bytes and every [sleep] lasts 5 seconds, in
    the one-shot path and in the loop alike. *)
Theorem calls_as_configured (E : env) (n : nat) (cmd : str) :
  emits (expected_call E) (time_updater E n) /\
  emits (expected_call E) (normal_command E cmd).
Proof.
  split.
  - apply emits_time_updater.
  - apply emits_normal_command.
Qed.

(** A cycle makes the poll and at most one more request, and reads the
    clock at most once. *)
Lemma update_time_counts (E : env) (w : world) :
  (S (sockets w) <= sockets (snd (update_time E w)) <= S (S (sockets w)))%nat /\
  (clock w <= clock (snd (update_time E w)) <= S (clock w))%nat.
Proof.
  cbv beta iota zeta delta
    [update_time try_except bind reconcile lift datetime_now logging emit ret].
  pose proof (send_command_sockets E commands_time w) as [Hs Hc].
  destruct (send_command E commands_time w) as [[rsp|e] w1];
    cbn [fst snd sockets clock isinstance] in *; [|lia].
  destruct (truthy rsp); [|cbn [fst snd sockets clock]; lia].
  destruct rsp as [text|]; [|cbn [fst snd sockets clock]; lia].
  destruct (reply_get_time E text) as [g|e];
    cbn [fst snd sockets clock isinstance]; [|lia].
  destruct (reply_datetime g) as [time_remote|e];
    cbn [fst snd sockets clock isinstance]; [|lia].
  destruct (drift_exceeds_60s _);
    cbn [fst snd sockets clock isinstance]; [|lia].
  match goal with
  | |- context [send_command E ?c ?w2] =>
      pose proof (send_command_sockets E c w2) as [Hs2 Hc2];
      destruct (send_command E c w2) as [[d|e2] w3]
  end; cbn [fst snd sockets clock isinstance] in *; lia.
Qed.

(** X12.  Traffic of the loop: each cycle opens one socket for the poll
    and at most one more, and reads the clock at most once, so after [n]
    cycles between [n] and [2 n] sockets have been opened and the clock
    has been read at most [n] times. *)
Theorem time_updater_traffic (E : env) (n : nat) (w : world) :
  (sockets w + n <= sockets (snd (time_updater E n w)) <= sockets w + 2 * n)%nat /\
  (clock w <= clock (snd (time_updater E n w)) <= clock w + n)%nat.
Proof.
  revert w. induction n as [|k IH]; intros w; simpl.
  - lia.
  - cbv beta delta [bind sleep emit].
    pose proof (update_time_returns E w) as Hr.
    pose proof (update_time_counts E w) as [Hs Hc].
    destruct (update_time E w) as [[[]|e] w1]; simpl in Hr, Hs, Hc;
      [|discriminate].
    simpl.
    match goal with
    | |- context [time_updater E k ?w2] => specialize (IH w2)
    end.
    simpl in IH. lia.
Qed.

(** X13.  When the drift exceeds 60 seconds, the old and the new time are
    logged whatever became of the correction: also when [send_command]
    returned [None] because the device could not be reached, the cycle
    logs the time it tried to set, followed by [None]. *)
Theorem correction_logged_regardless
    (E : env) (w w1 w3 : world) (text : str) (g : json)
    (time_remote : datetime) (decrypted : option str) :
  send_command E commands_time w = (Return (Some text), w1) ->
  text <> [] ->
  reply_get_time E text = Return g ->
  reply_datetime g = Return time_remote ->
  60 * 1000000 < Z.abs (Datetime.sub time_remote (now E (clock w1))) ->
  send_command E (set_timezone_cmd (now E (clock w1)))
    {| sockets := sockets w1; clock := S (clock w1);
       trace := trace w1 ++ [EvNow] |}
  = (Return decrypted, w3) ->
  update_time E w
  = (Return tt,
     {| sockets := sockets w3; clock := clock w3;
        trace := trace w3
                 ++ [EvLog INFO (OldTime time_remote);
                     EvLog INFO (NewTime (now E (clock w1)));
                     EvLog INFO (Text decrypted)] |}).
Proof.
  intros Hs Ht Hg Hd Hdrift Hc.
  rewrite (update_time_parsed E w w1 text g time_remote Hs Ht Hg Hd).
  unfold try_except, reconcile.
  rewrite (proj2 (drift_exceeds_iff _) Hdrift).
  unfold bind. rewrite Hc. simpl. rewrite <- !app_assoc. reflexivity.
Qed.

(** The device answers the poll with 12:01:01 and is gone when the
    correction is sent. *)
Lemma correction_logged_regardless_witness :
  let E := sample_env
             (fun k => match k with
                       | O => answering [0; 0; 0; 2; 208; 173]
                       | S _ => refusing
                       end)
             (device_reports 12 1 1) in
  fst (update_time E world0) = Return tt /\
  logs (trace (snd (update_time E world0)))
  = [(ERROR, CouldNotConnect "192.168.0.1" 9999);
     (INFO, OldTime (Datetime.mk 2024 1 1 12 1 1 0));
     (INFO, NewTime noon);
     (INFO, Text None)].
Proof.
  intros E.
  pose (w1 := snd (send_command E commands_time world0)).
  pose (w2 := {| sockets := sockets w1; clock := S (clock w1);
                 trace := trace w1 ++ [EvNow] |}).
  pose (w3 := snd (send_command E (set_timezone_cmd noon) w2)).
  assert (Hs : send_command E commands_time world0
               = (Return (Some [123; 125]), w1))
    by (vm_compute; reflexivity).
  assert (Ht : [123; 125] <> @nil Z) by discriminate.
  assert (Hg : reply_get_time E [123; 125] = Return (get_time_reply 12 1 1))
    by (vm_compute; reflexivity).
  assert (Hd : reply_datetime (get_time_reply 12 1 1)
               = Return (Datetime.mk 2024 1 1 12 1 1 0))
    by (vm_compute; reflexivity).
  assert (Hdrift : 60 * 1000000
                   < Z.abs (Datetime.sub (Datetime.mk 2024 1 1 12 1 1 0)
                              (now E (clock w1))))
    by (vm_compute; reflexivity).
  assert (Hc : send_command E (set_timezone_cmd (now E (clock w1))) w2
               = (Return None, w3))
    by (vm_compute; reflexivity).
  rewrite (correction_logged_regardless E world0 w1 w3 [123; 125]
             (get_time_reply 12 1 1) (Datetime.mk 2024 1 1 12 1 1 0) None
             Hs Ht Hg Hd Hdrift Hc).
  split; [reflexivity|]. vm_compute. reflexivity.
Defined.




(** A lookup in a [dict] returns or raises [KeyError]. *)
Lemma getitem_dict (d : list (str * json)) (k : string) :
  (exists v, getitem (JDict d) k = Return v) \/
  getitem (JDict d) k = Raise KeyError.
Proof.
  simpl. destruct (find _ d); [left; eexists; reflexivity|right; reflexivity].
Qed.

Lemma reply_datetime_missing (d : list (str * json)) (k : string) :
  In k time_fields ->
  getitem (JDict d) k = Raise KeyError ->
  reply_datetime (JDict d) = Raise KeyError.
Proof.
  intros Hin Hk. unfold reply_datetime.
  destruct (getitem_dict d "year") as [(vy & Hy)|Hy]; rewrite Hy;
    [|reflexivity].
  destruct (getitem_dict d "month") as [(vm & Hm)|Hm]; rewrite Hm;
    [|reflexivity].
  destruct (getitem_dict d "mday") as [(vd & Hd)|Hd]; rewrite Hd;
    [|reflexivity].
  destruct (getitem_dict d "hour") as [(vh & Hh)|Hh]; rewrite Hh;
    [|reflexivity].
  destruct (getitem_dict d "min") as [(vmi & Hmi)|Hmi]; rewrite Hmi;
    [|reflexivity].
  destruct (getitem_dict d "sec") as [(vs & Hs)|Hs]; rewrite Hs;
    [|reflexivity].
  exfalso. simpl in Hin.
  destruct Hin as [H|[H|[H|[H|[H|[H|[]]]]]]]; subst k; congruence.
Qed.

(** X15.  When the reply parses but its [get_time] object lacks one of
    the six fields, the cycle reads the clock, then fails with [KeyError]
    before any value is looked at: the exception is logged and nothing
    else is done. *)
Theorem missing_field_logged
    (E : env) (w w1 : world) (text : str) (d : list (str * json))
    (k : string) :
  send_command E commands_time w = (Return (Some text), w1) ->
  text <> [] ->
  reply_get_time E text = Return (JDict d) ->
  In k time_fields ->
  getitem (JDict d) k = Raise KeyError ->
  update_time E w
  = (Return tt,
     {| sockets := sockets w1; clock := S (clock w1);
        trace := trace w1 ++ [EvNow; EvLog ERROR (Traceback KeyError)] |}).
Proof.
  intros Hs Ht Hg Hin Hk.
  pose proof (reply_datetime_missing d k Hin Hk) as Hd.
  unfold update_time, try_except, bind. rewrite Hs.
  destruct text as [|c text']; [congruence|].
  cbn [truthy]. unfold lift, datetime_now. rewrite Hg, Hd.
  cbn [isinstance]. unfold logging, emit. simpl.
  rewrite <- app_assoc. reflexivity.
Qed.

(** The device reports a time without seconds. *)
Lemma missing_field_logged_witness :
  let no_sec := JDict [(lit "year", JInt 2024); (lit "month", JInt 1);
                       (lit "mday", JInt 1); (lit "hour", JInt 12);
                       (lit "min", JInt 0)] in
  let loads := fun _ : str =>
    Return (JDict [(lit "time", JDict [(lit "get_time", no_sec)])]) in
  let E := sample_env (fun _ => answering [0; 0; 0; 2; 208; 173]) loads in
  getitem no_sec "sec" = Raise KeyError /\
  fst (update_time E world0) = Return tt /\
  logs (trace (snd (update_time E world0)))
  = [(ERROR, Traceback KeyError)].
Proof.
  intros no_sec loads E.
  pose (w1 := snd (send_command E commands_time world0)).
  assert (Hs : send_command E commands_time world0
               = (Return (Some [123; 125]), w1))
    by (vm_compute; reflexivity).
  assert (Ht : [123; 125] <> @nil Z) by discriminate.
  assert (Hk : getitem no_sec "sec" = Raise KeyError)
    by (vm_compute; reflexivity).
  assert (Hin : In "sec"%string time_fields) by (simpl; tauto).
  split; [exact Hk|].
  rewrite (missing_field_logged E world0 w1 [123; 125] _ "sec"
             Hs Ht eq_refl Hin Hk).
  split; [reflexivity|]. vm_compute. reflexivity.
Defined.

Lemma is_bytes_app (a b : list Z) :
  is_bytes (a ++ b) = is_bytes a && is_bytes b.
Proof. apply forallb_app. Qed.

Lemma is_bytes_lit (s : string) : is_bytes (lit s) = true.
Proof.
  unfold lit. induction s as [|c s IH]; [reflexivity|].
  simpl. apply is_bytes_cons. split; [|exact IH].
  pose proof (Ascii.N_ascii_bounded c). lia.
Qed.

Lemma is_bytes_quoted (s : string) : is_bytes (quoted s) = true.
Proof.
  unfold quoted. change (34 :: lit s ++ [34]) with ([34] ++ lit s ++ [34]).
  rewrite !is_bytes_app, is_bytes_lit. reflexivity.
Qed.

(** The time-set command is ASCII text whatever the fields hold. *)
Lemma set_timezone_cmd_bytes (time : datetime) :
  is_bytes (set_timezone_cmd time) = true.
Proof.
  unfold set_timezone_cmd, str_of_int.
  rewrite !is_bytes_app, !is_bytes_quoted, !is_bytes_lit. reflexivity.
Qed.

(** Numbers below 10000 print in at most four digits: checked on each. *)
Lemma str_of_int_short (v : Z) :
  0 <= v < 10000 -> (length (str_of_int v) <= 4)%nat.
Proof.
  intros Hv.
  assert (Hall : forallb (fun n => (length (str_of_int (Z.of_nat n)) <=? 4)%nat)
                   (seq 0 (Z.to_nat 10000)) = true) by (vm_compute; reflexivity).
  rewrite forallb_forall in Hall.
  specialize (Hall (Z.to_nat v)).
  rewrite Z2Nat.id in Hall by lia.
  apply Nat.leb_le, Hall, in_seq. lia.
Qed.

Lemma set_timezone_cmd_short (time : datetime) :
  valid_datetime time -> (length (set_timezone_cmd time) <= 200)%nat.
Proof.
  intros (Hy & Hm & Hd & Hh & Hmi & Hs & _).
  assert (Hdim : Datetime.days_in_month (year time) (month time) <= 31).
  { unfold Datetime.days_in_month.
    destruct (month time =? 2); [destruct (Datetime.is_leap _); lia|].
    destruct ((month time =? 4) || (month time =? 6) || (month time =? 9)
              || (month time =? 11)); lia. }
  pose proof (str_of_int_short (year time)) as L1.
  pose proof (str_of_int_short (month time)) as L2.
  pose proof (str_of_int_short (day time)) as L3.
  pose proof (str_of_int_short (hour time)) as L4.
  pose proof (str_of_int_short (minute time)) as L5.
  pose proof (str_of_int_short (second time)) as L6.
  pose proof (str_of_int_short 41) as L7.
  unfold set_timezone_cmd. rewrite !length_app.
  repeat match goal with
         | |- context [length (lit ?s)] =>
             let n := eval vm_compute in (length (lit s)) in
             change (length (lit s)) with n
         | |- context [length (quoted ?s)] =>
             let n := eval vm_compute in (length (quoted s)) in
             change (length (quoted s)) with n
         end.
  lia.
Qed.

(** X16.  The correction can always be framed: for every local time that
    [datetime.now()] can return, the time-set command is ASCII text of at
    most 200 characters, so [encrypt] returns a frame for it, and the
    frame decodes back to the command. *)
Theorem correction_command_frames (time : datetime) :
  valid_datetime time ->
  exists framed,
    encrypt (set_timezone_cmd time) = Return framed /\
    decrypt (skipn 4 framed) = set_timezone_cmd time /\
    (length framed <= 204)%nat.
Proof.
  intros Hv.
  pose proof (set_timezone_cmd_bytes time) as Hb.
  pose proof (set_timezone_cmd_short time Hv) as Hl.
  assert (Hlen : len (set_timezone_cmd time) < 2 ^ 32).
  { unfold len. change (2 ^ 32) with 4294967296. lia. }
  destruct (encrypt_eq _ Hb Hlen) as (hdr & _ & Hh & _ & He).
  exists (hdr ++ encrypt_stream 171 (set_timezone_cmd time)).
  split; [exact He|]. split.
  - rewrite skipn_header by exact Hh.
    rewrite decrypt_stream_eq. apply stream_roundtrip.
  - rewrite length_app, Hh, encrypt_stream_length. lia.
Qed.

Lemma correction_command_frames_witness :
  valid_datetime noon /\
  exists framed,
    encrypt (set_timezone_cmd noon) = Return framed /\
    decrypt (skipn 4 framed) = set_timezone_cmd noon /\
    (length framed <= 204)%nat.
Proof.
  assert (Hv : valid_datetime noon) by (vm_compute; intuition discriminate).
  split; [exact Hv|]. exact (correction_command_frames noon Hv).
Defined.

End TimeSyncMore.

(** * Properties of the command line and of the one-shot path *)

Module CommandLine.
Import Codec CodecFacts CodecMore TransportFacts TransportMore.
Import TimeSyncFacts TimeSyncMore.

#[local] Arguments send_command : simpl never.
#[local] Arguments Z.to_nat : simpl never.

(** [validPort] accepts exactly the texts that [int] reads as a number
    from 1025 to 65535, and returns that number. *)
Lemma validPort_range (P : platform) (port : str) (n : Z) :
  validPort P port = Accepted n <->
  int_of_str P port = Some n /\ 1025 <= n <= 65535.
Proof.
  unfold validPort. destruct (int_of_str P port) as [v|].
  - destruct ((v <=? 1024) || (v >? 65535)) eqn:Hr.
    + split; [discriminate|]. intros (Hv & Hn). inversion Hv. subst v.
      apply orb_true_iff in Hr. rewrite Z.leb_le, Z.gtb_ltb, Z.ltb_lt in Hr. lia.
    + apply orb_false_iff in Hr. rewrite Z.leb_gt, Z.gtb_ltb, Z.ltb_ge in Hr.
      split.
      * intros H. inversion H. subst v. split; [reflexivity|lia].
      * intros (Hv & _). inversion Hv. reflexivity.
  - split; [discriminate|]. intros (H & _). discriminate.
Qed.

Lemma validPort_bounds (P : platform) (port : str) (n : Z) :
  validPort P port = Accepted n -> 1025 <= n <= 65535.
Proof.
  unfold validPort. destruct (int_of_str P port) as [v|]; [|discriminate].
  destruct ((v <=? 1024) || (v >? 65535)) eqn:Hr; [discriminate|].
  intros H. inversion H. subst v.
  apply orb_false_iff in Hr. rewrite Z.leb_gt, Z.gtb_ltb, Z.ltb_ge in Hr. lia.
Qed.

(** Every other text gets the parser error of [validPort]. *)
Lemma validPort_refuses (P : platform) (port : str) :
  int_of_str P port = None \/
  (exists n, int_of_str P port = Some n /\ (n <= 1024 \/ 65535 < n)) ->
  validPort P port = ParserError InvalidPortNumber.
Proof.
  unfold validPort. intros [Hn|(n & Hn & Hr)]; rewrite Hn; [reflexivity|].
  replace ((n <=? 1024) || (n >? 65535)) with true; [reflexivity|].
  symmetry. apply orb_true_iff. rewrite Z.leb_le, Z.gtb_ltb, Z.ltb_lt. lia.
Qed.

Lemma consume_app (P : platform) (l1 l2 : list cli_option) :
  forall a,
    consume P a (l1 ++ l2)
    = match consume P a l1 with
      | Accepted a' => consume P a' l2
      | ParserError why => ParserError why
      end.
Proof.
  induction l1 as [|o rest IH]; intros a; simpl; [reflexivity|].
  destruct (take P a o) as [a1|why]; [apply IH|reflexivity].
Qed.

(** An option other than [-p] leaves [args.port] as it is. *)
Lemma take_keeps_port (P : platform) (a a' : Args.partial) (o : cli_option) :
  is_port_option o = false -> take P a o = Accepted a' ->
  Args.p_port a' = Args.p_port a.
Proof.
  destruct a as [tg po qu ti co js ke]. intros Ho Ht.
  destruct o as [hostname|port_text| |t|name|j|]; simpl in Ho, Ht;
    try discriminate Ho.
  - destruct (validHostname P hostname); inversion Ht; reflexivity.
  - inversion Ht; reflexivity.
  - inversion Ht; reflexivity.
  - destruct (negb (in_commands name)); [discriminate|].
    destruct (is_some js || ke); inversion Ht; reflexivity.
  - destruct (is_some co || ke); inversion Ht; reflexivity.
  - destruct (is_some co || is_some js); inversion Ht; reflexivity.
Qed.

Lemma consume_keeps_port (P : platform) (opts : list cli_option) :
  forall a a',
    existsb is_port_option opts = false -> consume P a opts = Accepted a' ->
    Args.p_port a' = Args.p_port a.
Proof.
  induction opts as [|o rest IH]; intros a a' Ho Hc; simpl in Ho, Hc.
  - inversion Hc. reflexivity.
  - apply orb_false_iff in Ho. destruct Ho as [Ho Hrest].
    destruct (take P a o) as [a1|why] eqn:Ht; [|discriminate].
    rewrite (IH a1 a' Hrest Hc). exact (take_keeps_port P a a1 o Ho Ht).
Qed.

(** X17.  The text of a [-p] option that the parser reaches is checked
    when it is reached: a text that [int] does not read, a number up to
    1024 and a number above 65535 end the parsing with the same parser
    error, [Invalid port number.], whatever follows on the command line;
    so a command line is accepted only when the text reads as a number
    from 1025 to 65535, and that number is [args.port] unless a later
    [-p] replaces it. *)
Theorem port_option_checked
    (P : platform) (before after : list cli_option) (port : str)
    (a : Args.partial) :
  consume P Args.defaults before = Accepted a ->
  (int_of_str P port = None \/
   (exists n, int_of_str P port = Some n /\ (n <= 1024 \/ 65535 < n)) ->
   parse_args P (before ++ OptPort port :: after)
   = ParserError InvalidPortNumber) /\
  (forall args,
      parse_args P (before ++ OptPort port :: after) = Accepted args ->
      exists n,
        int_of_str P port = Some n /\ 1025 <= n <= 65535 /\
        (existsb is_port_option after = false -> Args.port args = n)).
Proof.
  intros Hb.
  assert (Hc : consume P Args.defaults (before ++ OptPort port :: after)
               = match validPort P port with
                 | Accepted n =>
                     consume P
                       (Args.mk_partial (Args.p_target a) n (Args.p_quiet a)
                          (Args.p_timeout a) (Args.p_command a) (Args.p_json a)
                          (Args.p_keep_time_updated a)) after
                 | ParserError why => ParserError why
                 end).
  { rewrite consume_app, Hb. destruct a as [tg po qu ti co js ke]. simpl.
    destruct (validPort P port); reflexivity. }
  split.
  - intros Hbad. unfold parse_args.
    rewrite Hc, (validPort_refuses P port Hbad). reflexivity.
  - intros args Hp. unfold parse_args in Hp. rewrite Hc in Hp.
    destruct (validPort P port) as [n|why] eqn:Hv; [|discriminate].
    apply validPort_range in Hv. destruct Hv as [Hi Hr].
    exists n. split; [exact Hi|]. split; [exact Hr|].
    intros Hafter.
    destruct (consume P _ after) as [a2|why] eqn:Ha; [|discriminate].
    pose proof (consume_keeps_port P after _ a2 Hafter Ha) as Hk.
    simpl in Hk.
    destruct (Args.p_target a2) as [h|]; [|discriminate].
    destruct (is_some (Args.p_command a2) || is_some (Args.p_json a2)
              || Args.p_keep_time_updated a2); [|discriminate].
    inversion Hp. simpl. exact Hk.
Qed.

Lemma port_option_checked_witness :
  let before := [OptTarget "192.168.0.1"; OptCommand "on"] in
  let after := [OptQuiet] in
  (exists a, consume sample_platform Args.defaults before = Accepted a) /\
  parse_args sample_platform (before ++ OptPort (lit "1024") :: after)
  = ParserError InvalidPortNumber /\
  parse_args sample_platform (before ++ OptPort (lit "65536") :: after)
  = ParserError InvalidPortNumber /\
  parse_args sample_platform (before ++ OptPort (lit "http") :: after)
  = ParserError InvalidPortNumber /\
  (exists args,
     parse_args sample_platform (before ++ OptPort (lit "65535") :: after)
     = Accepted args /\
     Args.port args = 65535).
Proof.
  intros before after.
  assert (Hb : exists a,
             consume sample_platform Args.defaults before = Accepted a)
    by (eexists; vm_compute; reflexivity).
  split; [exact Hb|]. destruct Hb as (a & Hb).
  split; [|split; [|split]].
  - apply (port_option_checked sample_platform before after (lit "1024") a Hb).
    right. exists 1024. split; [vm_compute; reflexivity|lia].
  - apply (port_option_checked sample_platform before after (lit "65536") a Hb).
    right. exists 65536. split; [vm_compute; reflexivity|lia].
  - apply (port_option_checked sample_platform before after (lit "http") a Hb).
    left. vm_compute. reflexivity.
  - assert (Hp : exists args,
               parse_args sample_platform
                 (before ++ OptPort (lit "65535") :: after) = Accepted args)
      by (eexists; vm_compute; reflexivity).
    destruct Hp as (args & Hp). exists args. split; [exact Hp|].
    destruct (port_option_checked sample_platform before after (lit "65535")
                a Hb) as [_ Hacc].
    destruct (Hacc args Hp) as (n & Hi & _ & Hn).
    rewrite (Hn eq_refl). vm_compute in Hi. inversion Hi. reflexivity.
Defined.

Lemma consistent_defaults (P : platform) : consistent P Args.defaults.
Proof.
  unfold consistent. simpl. repeat split; try discriminate; lia.
Qed.

Lemma take_consistent (P : platform) (a a' : Args.partial) (o : cli_option) :
  consistent P a -> take P a o = Accepted a' -> consistent P a'.
Proof.
  destruct a as [tg po qu ti co js ke].
  intros (H1 & H2 & H3 & H4 & H5 & H6) Ht. simpl in *.
  destruct o as [hostname|port_text| |t|name|j|]; simpl in Ht.
  - unfold validHostname in Ht.
    destruct (gethostbyname P hostname) eqn:Hh; inversion Ht; subst a'.
    unfold consistent; simpl. repeat split; try assumption; try lia.
    intros h Hs. inversion Hs. subst h. exact Hh.
  - destruct (validPort P port_text) as [n|] eqn:Hp; inversion Ht; subst a'.
    apply validPort_bounds in Hp.
    unfold consistent; simpl. repeat split; try assumption; lia.
  - inversion Ht; subst a'. unfold consistent; simpl.
    repeat split; try assumption; lia.
  - inversion Ht; subst a'. unfold consistent; simpl.
    repeat split; try assumption; lia.
  - destruct (in_commands name) eqn:Hin; simpl in Ht; [|discriminate].
    destruct (is_some js || ke) eqn:Hc; [discriminate|].
    inversion Ht; subst a'. apply orb_false_iff in Hc. destruct Hc as [Hj Hk].
    unfold consistent; simpl. rewrite Hj, Hk.
    repeat split; try assumption; try lia; try reflexivity.
    intros c Hs. inversion Hs. subst c. exact Hin.
  - destruct (is_some co || ke) eqn:Hc; [discriminate|].
    inversion Ht; subst a'. apply orb_false_iff in Hc. destruct Hc as [Hj Hk].
    unfold consistent; simpl. rewrite Hj, Hk.
    repeat split; try assumption; try lia; try reflexivity.
  - destruct (is_some co || is_some js) eqn:Hc; [discriminate|].
    inversion Ht; subst a'. apply orb_false_iff in Hc. destruct Hc as [Hj Hk].
    unfold consistent; simpl. rewrite Hj, Hk.
    repeat split; try assumption; try lia; try reflexivity.
Qed.

Lemma consume_consistent (P : platform) (opts : list cli_option) :
  forall a a',
    consistent P a -> consume P a opts = Accepted a' -> consistent P a'.
Proof.
  induction opts as [|o rest IH]; intros a a' Ha Hc; simpl in Hc.
  - inversion Hc. subst a'. exact Ha.
  - destruct (take P a o) as [a1|why] eqn:Ht; [|discriminate].
    apply (IH a1 a'); [|exact Hc].
    exact (take_consistent P a a1 o Ha Ht).
Qed.

(** What an accepted command line guarantees. *)
Lemma parse_args_consistent
    (P : platform) (opts : list cli_option) (args : Args.namespace) :
  parse_args P opts = Accepted args ->
  gethostbyname P (Args.target args) = true /\
  1025 <= Args.port args <= 65535 /\
  ((exists name, Args.command args = Some name /\ in_commands name = true /\
                 Args.json args = None /\ Args.keep_time_updated args = false) \/
   (exists j, Args.command args = None /\ Args.json args = Some j /\
              Args.keep_time_updated args = false) \/
   (Args.command args = None /\ Args.json args = None /\
    Args.keep_time_updated args = true)).
Proof.
  unfold parse_args. intros H.
  destruct (consume P Args.defaults opts) as [a|why] eqn:Hc; [|discriminate].
  pose proof (consume_consistent P opts _ a (consistent_defaults P) Hc)
    as (H1 & H2 & H3 & H4 & H5 & H6).
  destruct a as [tg po qu ti co js ke]. simpl in *.
  destruct tg as [h|]; [|discriminate].
  destruct (is_some co || is_some js || ke) eqn:Hg; [|discriminate].
  inversion H. subst args. simpl.
  split; [apply H1; reflexivity|]. split; [exact H2|].
  destruct co as [name|]; destruct js as [j|]; destruct ke;
    simpl in *; try discriminate.
  - left. exists name. repeat split. apply H3. reflexivity.
  - right. left. exists j. repeat split.
  - right. right. repeat split.
Qed.

(** X18.  A command line is accepted only with a target that resolves, a
    port from 1025 to 65535 (9999 when none is given), and exactly one of
    a catalog command, a raw JSON text and the time-sync mode: whatever
    the order of the options, two of the three are refused, and so is a
    command name that is not in the catalog. *)
Theorem parse_args_accepts
    (P : platform) (opts : list cli_option) (args : Args.namespace) :
  parse_args P opts = Accepted args ->
  gethostbyname P (Args.target args) = true /\
  1025 <= Args.port args <= 65535 /\
  ((exists name, Args.command args = Some name /\ in_commands name = true /\
                 Args.json args = None /\ Args.keep_time_updated args = false) \/
   (exists j, Args.command args = None /\ Args.json args = Some j /\
              Args.keep_time_updated args = false) \/
   (Args.command args = None /\ Args.json args = None /\
    Args.keep_time_updated args = true)).
Proof.
  intros H.
  destruct (parse_args_consistent P opts args H) as (Ht & Hp & Hm).
  split; [exact Ht|]. split; [exact Hp|]. exact Hm.
Qed.

Lemma parse_args_accepts_witness :
  (exists args,
     parse_args sample_platform
       [OptTarget "192.168.0.1"; OptCommand "on"; OptPort (lit "1025")]
     = Accepted args /\
     gethostbyname sample_platform (Args.target args) = true /\
     1025 <= Args.port args <= 65535) /\
  parse_args sample_platform
    [OptTarget "192.168.0.1"; OptCommand "on"; OptPort (lit "1024")]
  = ParserError InvalidPortNumber /\
  parse_args sample_platform
    [OptTarget "192.168.0.1"; OptKeepTimeUpdated; OptCommand "on"]
  = ParserError UsageError /\
  parse_args sample_platform [OptTarget "192.168.0.1"; OptCommand "blink"]
  = ParserError UsageError.
Proof.
  split.
  - assert (H : exists args,
               parse_args sample_platform
                 [OptTarget "192.168.0.1"; OptCommand "on"; OptPort (lit "1025")]
               = Accepted args) by (eexists; vm_compute; reflexivity).
    destruct H as (args & H). exists args. split; [exact H|].
    destruct (parse_args_accepts sample_platform _ args H) as (Ht & Hp & _).
    split; assumption.
  - repeat split; vm_compute; reflexivity.
Defined.

(** Every catalog entry is ASCII text that fits the length field. *)
Lemma commands_frame (name : string) :
  in_commands name = true ->
  exists body framed,
    commands_get name = Return body /\ encrypt body = Return framed.
Proof.
  intros Hin. unfold commands_get.
  assert (Hall : forallb (fun kv => is_bytes (snd kv) && (len (snd kv) <? 2 ^ 32))
                   commands = true) by (vm_compute; reflexivity).
  rewrite forallb_forall in Hall.
  destruct (find (fun kv => String.eqb (fst kv) name) commands) as [kv|] eqn:Hf.
  - apply find_some in Hf. destruct Hf as [Hkv _].
    specialize (Hall kv Hkv). apply andb_true_iff in Hall.
    destruct Hall as [Hb Hl]. apply Z.ltb_lt in Hl.
    destruct (encrypt_eq (snd kv) Hb Hl) as (hdr & _ & _ & _ & He).
    exists (snd kv). eexists. split; [reflexivity|exact He].
  - unfold in_commands in Hin. apply existsb_exists in Hin.
    destruct Hin as (kv & Hkv & Heq).
    pose proof (find_none _ _ Hf kv Hkv) as Hn. simpl in Hn. congruence.
Qed.

(** In the one-shot mode [cmd] is a text, never [None]. *)
Lemma one_shot_has_cmd
    (P : platform) (opts : list cli_option) (args : Args.namespace) :
  parse_args P opts = Accepted args ->
  Args.keep_time_updated args = false ->
  exists cmd, select_cmd args = Return (Some cmd).
Proof.
  intros Hp Hk.
  destruct (parse_args_consistent P opts args Hp)
    as (_ & _ & [(name & Hc & Hin & _)|[(j & Hc & Hj & _)|(_ & _ & Hke)]]).
  - destruct (commands_frame name Hin) as (body & _ & Hb & _).
    exists body. unfold select_cmd. rewrite Hc, Hb. reflexivity.
  - exists j. unfold select_cmd. rewrite Hc, Hj. reflexivity.
  - congruence.
Qed.

Lemma awake_normal_command (E : env) (cmd : str) :
  awake (normal_command E cmd).
Proof.
  unfold normal_command.
  apply awake_bind; [apply awake_send_command|intros decrypted].
  destruct (quiet E).
  - apply awake_emit. reflexivity.
  - apply awake_bind; [apply awake_emit; reflexivity|intros _].
    apply awake_emit. reflexivity.
Qed.

(** The one-shot path after the exchange: two records, or one with
    [-q]; an exception passes through. *)
Lemma normal_command_after (E : env) (cmd : str) (w : world) :
  normal_command E cmd w
  = match send_command E cmd w with
    | (Return r, w1) =>
        (Return tt,
         {| sockets := sockets w1; clock := clock w1;
            trace := trace w1
                     ++ (if quiet E then [EvLog INFO (Text r)]
                         else [EvLog INFO (Sent cmd);
                               EvLog INFO (Received r)]) |})
    | (Raise e, w1) => (Raise e, w1)
    end.
Proof.
  unfold normal_command, bind.
  destruct (send_command E cmd w) as [[r|e] w1]; [|reflexivity].
  destruct (quiet E); unfold logging, emit; simpl;
    rewrite <- ?app_assoc; reflexivity.
Qed.

(** X19.  The one-shot path reports every exchange that returns and ends
    normally, also after a failed one, which it reports as a received
    [None] after the error record; an exception out of [send_command] is
    not caught and ends the program. *)
Theorem one_shot_report (E : env) (cmd : str) (w : world) :
  match fst (send_command E cmd w) with
  | Return r =>
      fst (normal_command E cmd w) = Return tt /\
      logs (trace (snd (normal_command E cmd w)))
      = logs (trace w)
        ++ match r with
           | None => [(ERROR, CouldNotConnect (ip E) (port E))]
           | Some _ => []
           end
        ++ (if quiet E then [(INFO, Text r)]
            else [(INFO, Sent cmd); (INFO, Received r)])
  | Raise e =>
      normal_command E cmd w = (Raise e, snd (send_command E cmd w))
  end.
Proof.
  rewrite normal_command_after.
  pose proof (send_command_logs E cmd w) as Hl.
  destruct (send_command E cmd w) as [[r|e] w1]; simpl in *; [|reflexivity].
  split; [reflexivity|].
  rewrite logs_app, Hl, <- app_assoc.
  destruct r; destruct (quiet E); reflexivity.
Qed.

(** X20.  Wherever the run takes the program, in either mode and for any
    number of cycles, every connection it attempts goes to a host that
    resolved when the arguments were read, on a port from 1025 to
    65535. *)
Theorem script_connects_validated
    (P : platform) (O : oracles) (opts : list cli_option) (n : nat)
    (r : outcome unit) (w : world) :
  script P O opts n = Accepted (r, w) ->
  Forall (validated_target P) (trace w).
Proof.
  unfold script. intros H.
  destruct (parse_args P opts) as [args|why] eqn:Hp; [|discriminate].
  destruct (parse_args_consistent P opts args Hp) as (Ht & Hport & _).
  assert (Himp : forall e, expected_call (env_of P O args) e ->
                           validated_target P e).
  { intros [] He; simpl in *; try exact I.
    destruct He as [-> ->]. split; assumption. }
  assert (Hrun : forall (c : M unit),
             emits (expected_call (env_of P O args)) c ->
             Forall (validated_target P) (trace (snd (c world0)))).
  { intros c Hc. destruct (Hc world0) as (evs & Htr & Hall).
    rewrite Htr. simpl. eapply Forall_impl; [exact Himp|exact Hall]. }
  inversion H as [Hrw]. clear H.
  destruct (select_cmd args) as [cmd|e].
  - destruct (negb (Args.keep_time_updated args)).
    + destruct cmd as [c|].
      * pose proof (Hrun _ (emits_normal_command (env_of P O args) c)) as Hf.
        rewrite Hrw in Hf. exact Hf.
      * inversion Hrw. constructor.
    + pose proof (Hrun _ (emits_time_updater (env_of P O args) n)) as Hf.
      rewrite Hrw in Hf. exact Hf.
  - inversion Hrw. constructor.
Qed.

Lemma script_connects_validated_witness :
  let opts := [OptTarget "192.168.0.1"; OptKeepTimeUpdated] in
  let O := sample_oracles (fun _ => refusing) in
  exists w,
    script sample_platform O opts 2 = Accepted (Return tt, w) /\
    connects (trace w) = 2%nat /\
    Forall (validated_target sample_platform) (trace w).
Proof.
  intros opts O.
  assert (H : exists w, script sample_platform O opts 2 = Accepted (Return tt, w))
    by (eexists; vm_compute; reflexivity).
  destruct H as (w & H). exists w. split; [exact H|]. split.
  - vm_compute in H. inversion H. reflexivity.
  - exact (script_connects_validated sample_platform O opts 2 _ w H).
Defined.

(** X21.  A catalog command given with [-c] and a timeout that
    [settimeout] accepts make a one-shot run that cannot raise: whenever
    the run ends, whatever the device and the network did, it has ended
    without an exception, after exactly one request that sent at most
    the frame of the catalog entry, with no clock read and no sleep.
    Whether the run ends is not stated: a [recv] that never returns is
    not among the runs described (see [exchange]). *)
Theorem one_shot_preset_run
    (P : platform) (O : oracles) (opts : list cli_option) (n : nat)
    (args : Args.namespace) (name : string) :
  parse_args P opts = Accepted args ->
  Args.command args = Some name ->
  timeout_check P (Args.timeout args) = None ->
  exists body framed,
    commands_get name = Return body /\
    encrypt body = Return framed /\
    forall r w,
      script P O opts n = Accepted (r, w) ->
      r = Return tt /\
      sockets w = 1%nat /\ clock w = 0%nat /\ sleeps (trace w) = 0%nat /\
      (frames (trace w) = [] \/ frames (trace w) = [framed]).
Proof.
  intros Hp Hc Ht.
  destruct (parse_args_consistent P opts args Hp)
    as (_ & _ & [(name' & Hc' & Hin & _ & Hk)|[(j & Hc' & _)|(Hc' & _)]]);
    try congruence.
  assert (name' = name) by congruence. subst name'.
  destruct (commands_frame name Hin) as (body & framed & Hb & He).
  exists body, framed.
  split; [exact Hb|]. split; [exact He|].
  intros r0 w Hrun.
  set (E := env_of P O args).
  assert (Hr : exists r, fst (send_command E body world0) = Return r).
  { destruct (fst (send_command E body world0)) as [r|e] eqn:Hs;
      [eexists; reflexivity|].
    destruct (send_command_raise_cause E body world0 e Hs)
      as [(f & Hf & _)|Hx].
    - unfold E in Hf. simpl in Hf. congruence.
    - congruence. }
  destruct Hr as (r & Hr).
  pose proof (send_command_sockets E body world0) as [Hs1 Hs2].
  pose proof (awake_send_command E body world0) as Hs3.
  pose proof (send_command_frames E body world0) as Hs4.
  pose proof (normal_command_after E body world0) as Hn.
  destruct (send_command E body world0) as [o w1]. simpl in *. subst o.
  unfold script in Hrun. rewrite Hp in Hrun. unfold select_cmd in Hrun.
  rewrite Hc, Hb in Hrun. simpl in Hrun. rewrite Hk in Hrun. simpl in Hrun.
  fold E in Hrun. rewrite Hn in Hrun. inversion Hrun. subst r0 w. clear Hrun.
  split; [reflexivity|].
  simpl. split; [exact Hs1|]. split; [exact Hs2|]. split.
  - unfold sleeps in *. rewrite filter_app, length_app, Hs3.
    destruct (Args.quiet args); reflexivity.
  - rewrite frames_app.
    replace (frames (if Args.quiet args then [EvLog INFO (Text r)]
                     else [EvLog INFO (Sent body); EvLog INFO (Received r)]))
      with (@nil bytes) by (destruct (Args.quiet args); reflexivity).
    rewrite app_nil_r.
    destruct Hs4 as [H0|(f & Hf & H1)]; [left; exact H0|].
    right. rewrite H1. congruence.
Qed.

Lemma one_shot_preset_run_witness :
  let opts := [OptTarget "192.168.0.1"; OptCommand "on"; OptQuiet] in
  let O := sample_oracles (fun _ => answering [0; 0; 0; 2; 208; 173]) in
  exists args body framed w,
    parse_args sample_platform opts = Accepted args /\
    Args.command args = Some "on"%string /\
    timeout_check sample_platform (Args.timeout args) = None /\
    commands_get "on" = Return body /\
    encrypt body = Return framed /\
    script sample_platform O opts 0 = Accepted (Return tt, w) /\
    sockets w = 1%nat /\ clock w = 0%nat /\ sleeps (trace w) = 0%nat /\
    frames (trace w) = [framed] /\
    logs (trace w) = [(INFO, Text (Some (lit "{}")))].
Proof.
  intros opts O.
  assert (Hp : exists args, parse_args sample_platform opts = Accepted args)
    by (eexists; vm_compute; reflexivity).
  destruct Hp as (args & Hp).
  assert (Hc : Args.command args = Some "on"%string)
    by (vm_compute in Hp; inversion Hp; reflexivity).
  assert (Ht : timeout_check sample_platform (Args.timeout args) = None)
    by (vm_compute in Hp; inversion Hp; reflexivity).
  destruct (one_shot_preset_run sample_platform O opts 0 args "on" Hp Hc Ht)
    as (body & framed & Hb & He & Hall).
  assert (Hs : exists rw, script sample_platform O opts 0 = Accepted rw)
    by (eexists; vm_compute; reflexivity).
  destruct Hs as ([r w] & Hs).
  destruct (Hall r w Hs) as (Hr & Hk & Hcl & Hsl & _).
  subst r.
  exists args, body, framed, w.
  repeat (split; [assumption|]).
  assert (Hb' : body = request "system" "set_relay_state" (member "state" "1"))
    by (vm_compute in Hb; inversion Hb; reflexivity).
  subst body. vm_compute in He. inversion He. subst framed.
  vm_compute in Hs. inversion Hs. split; reflexivity.
Defined.

End CommandLine.
